(** * The goa DSL evaluation engine (package [eval])

    A shallow embedding of [eval/eval.go] and of the expression model it is
    compiled with.  The engine is written against process-wide mutable
    state ([Context]) and against callbacks supplied by the DSL
    implementations; both are modelled by explicit state passing: a Go
    function that touches the state is a function of type [M A], from the
    world before the call to the outcome of the call. *)

From Stdlib Require Import List String Ascii Arith PeanoNat Bool Lia.
From Stdlib Require Import Relations Permutation ZArith.
Import ListNotations.

Local Open Scope string_scope.
Local Open Scope list_scope.

Set Warnings "-register-all".

Module eval.

(** ** Small list helpers *)

(** [strings.Join]. *)
Fixpoint Join (elems : list string) (sep : string) : string :=
  match elems with
  | [] => EmptyString
  | [s] => s
  | s :: rest => (s ++ sep ++ Join rest sep)%string
  end.

(** Does the text contain the byte ['%'], the only byte [fmt] treats as the
    start of a verb? *)
Fixpoint has_verb (s : string) : bool :=
  match s with
  | EmptyString => false
  | String c rest => if Ascii.eqb c "%"%char then true else has_verb rest
  end.

(** [strings.Split(s, sep)] for a separator of one byte. *)
Fixpoint Split (s : string) (sep : ascii) : list string :=
  match s with
  | EmptyString => [EmptyString]
  | String c rest =>
      if Ascii.eqb c sep then EmptyString :: Split rest sep
      else match Split rest sep with
           | [] => [String c EmptyString]
           | first :: others => String c first :: others
           end
  end.

(** Does the byte occur in the text? *)
Fixpoint has_byte (c : ascii) (s : string) : bool :=
  match s with
  | EmptyString => false
  | String a rest => if Ascii.eqb a c then true else has_byte c rest
  end.

Definition NL : string := String (ascii_of_nat 10) EmptyString.

(** ** Outcomes of a Go call *)

Inductive panic : Type :=
| NilErrorsAssertion   (* interface conversion: error is nil, not eval.MultiError *)
| SliceBounds          (* slice bounds out of range *)
| CallbackPanic.       (* a panic raised by collaborator code *)

Inductive outcome (W A : Type) : Type :=
| Returns (a : A) (w : W)   (* normal return, with the state it leaves *)
| Panics (p : panic)        (* the goroutine panics *)
| Timeout.                  (* the model's loop budget ran out *)

Arguments Returns {W A} a w.
Arguments Panics {W A} p.
Arguments Timeout {W A}.

Section Engine.

(** The DSL implementations own three kinds of things the engine only
    visits: the expression objects, the root objects and the object graph
    they live in ([Heap]).  [Value] is the type of [fmt] operands. *)
Context {ExprObj RootObj Heap Value : Type}.

(** *** expression.go: [Expr], [TopExpr], [ExprSet] *)

(** A value of interface type [Expr]: the nil interface, a [TopExpr]
    string, or an object of a collaborator's type. *)
Inductive Expr : Type :=
| nilExpr
| TopExpr (s : string)
| exprObj (o : ExprObj).

Definition Top : Expr := TopExpr "top-level".

Definition ExprSet := list Expr.

Definition Root := RootObj.

(** *** Errors *)

(** Non-nil values of Go's [error] interface as validators and [fmt]
    produce them: a plain error, observed only through its message, or a
    pointer to a [ValidationErrors] batch.  An [option error] is an
    interface value, [None] being nil.  (An interface holding a nil
    pointer to a batch is not modelled.) *)
Inductive error : Type :=
| errorString (msg : string)
| ValidationErrorsRef (errs : list (option error)) (exprs : list Expr).

Record ValidationErrors : Type := mkValidationErrors {
  Errors : list (option error);
  Exprs : list Expr
}.

Definition batch_error (v : ValidationErrors) : error :=
  ValidationErrorsRef (Errors v) (Exprs v).

(** Modelled from the spec: [Error] and [MultiError] of error.go, which is
    not part of the sources at hand; [eval.go] builds the record with the
    three fields below, and [MultiError] is the slice of these records
    that [Context.Errors] holds. *)
Record Error : Type := mkError {
  GoError : option error;
  File : string;
  Line : nat
}.

Definition MultiError := list Error.

(** The [error] values the engine's entry points return. *)
Inductive engineError : Type :=
| plainError (e : error)
| multiError (m : MultiError).

(** *** context.go: the execution context *)

(** Modelled from the spec: [DSLContext] of context.go, which is not part
    of the sources at hand; the stack, the errors and the registered
    roots.  [Errors] has an interface type in Go ([eval.go] asserts its
    dynamic type and compares it with nil): it is nil or a [MultiError].
    The field is called [CtxErrors] here, [Errors] being the field of
    [ValidationErrors]. *)
Record DSLContext : Type := mkContext {
  Stack : list Expr;
  CtxErrors : option MultiError;
  roots : list Root
}.

Record World : Type := mkWorld {
  Context : DSLContext;
  heap : Heap
}.

(** A Go function of the engine or of a collaborator: it may read and
    write the context and the object graph, and return or panic. *)
Definition M (A : Type) : Type := World -> outcome World A.

Definition ret {A} (a : A) : M A := fun w => Returns a w.

Definition bind {A B} (m : M A) (k : A -> M B) : M B :=
  fun w =>
    match m w with
    | Returns a w' => k a w'
    | Panics p => Panics p
    | Timeout => Timeout
    end.

Notation "x <- m ;; k" := (bind m (fun x => k))
  (at level 61, m at next level, right associativity).
Notation "m ;;; k" := (bind m (fun _ => k))
  (at level 61, right associativity).

Definition set_Stack (s : list Expr) (w : World) : World :=
  mkWorld (mkContext s (CtxErrors (Context w)) (roots (Context w))) (heap w).

Definition set_Errors (e : option MultiError) (w : World) : World :=
  mkWorld (mkContext (Stack (Context w)) e (roots (Context w))) (heap w).

Definition set_roots (r : list Root) (w : World) : World :=
  mkWorld (mkContext (Stack (Context w)) (CtxErrors (Context w)) r) (heap w).

(** [return Context.Errors] from a function whose result type is [error]. *)
Definition Context_Errors (w : World) : option engineError :=
  option_map multiError (CtxErrors (Context w)).

(** The records held by [Context.Errors], none for nil. *)
Definition recorded (w : World) : MultiError :=
  match CtxErrors (Context w) with
  | None => []
  | Some m => m
  end.

(** The capabilities of the collaborators' objects.  A capability that an
    object does not implement is [None]: the engine's type tests
    [def.(Source)], [def.(Validator)] and [def.(Finalizer)] fail on it. *)
Variable EvalName_obj : ExprObj -> Heap -> string.
Variable Source_DSL : ExprObj -> option (World -> option (M unit)).
Variable Validator_Validate : ExprObj -> option (M (option error)).
Variable Finalizer_Finalize : ExprObj -> option (M unit).
Variable IterateSets : Root -> (ExprSet -> M (option engineError)) -> M unit.
Variable DSLName : Root -> string.
Variable DependsOn : Root -> list Root.

(** Roots are objects: two [Root] values are compared by identity. *)
Variable Root_eq_dec : forall a b : Root, {a = b} + {a <> b}.

(** What [fmt.Sprintf] yields when the format contains a verb or operands
    are passed, and the text [fmt] prints for an operand whose [Error]
    method panics: both are the [fmt] package's business. *)
Variable fmt_verbs : string -> list Value -> string.
Variable fmt_recovered : string.

(** [e.EvalName()]; calling a method of the nil interface panics. *)
Definition EvalName (e : Expr) (h : Heap) : option string :=
  match e with
  | nilExpr => None
  | TopExpr s => Some s
  | exprObj o => Some (EvalName_obj o h)
  end.

(** [fmt.Sprintf]: a format without verbs and without operands is copied. *)
Definition Sprintf (format : string) (vals : list Value) : string :=
  match vals with
  | [] => if has_verb format then fmt_verbs format vals else format
  | _ => fmt_verbs format vals
  end.

Definition Errorf (format : string) (vals : list Value) : error :=
  errorString (Sprintf format vals).

(** Modelled from the spec: [Stack.Current] of context.go, which is not
    part of the sources at hand; the top of the stack, nil when the stack
    is empty. *)
Definition Stack_Current (s : list Expr) : Expr := last s nilExpr.

(** Modelled from the spec: [DSLContext.Record] of context.go, which is
    not part of the sources at hand; appends one record to the ordered,
    append-only [Errors] collection. *)
Definition Record_ (err : Error) : M unit :=
  fun w =>
    Returns tt (set_Errors (Some (match CtxErrors (Context w) with
                                  | None => [err]
                                  | Some m => m ++ [err]
                                  end)) w).

(** Modelled from the spec: [Register] of context.go, which is not part of
    the sources at hand; registration is append-only and does not look at
    names. *)
Definition Register (r : Root) : M unit :=
  fun w => Returns tt (set_roots (roots (Context w) ++ [r]) w).

(** *** eval.go: [Current] *)

Definition Current (w : World) : Expr :=
  let current := Stack_Current (Stack (Context w)) in
  match current with
  | nilExpr => Top
  | _ => current
  end.

(** *** eval.go: [ReportError]

    [loc] is what [computeErrorLocation()] returns at the call: it reads
    the Go call stack, which the state does not hold. *)
Definition ReportError_suffix (w : World) : string :=
  match Stack_Current (Stack (Context w)) with
  | nilExpr => " (top level)"
  | cur =>
      match EvalName cur (heap w) with
      | Some name => if String.eqb name EmptyString then EmptyString else (" in " ++ name)%string
      | None => EmptyString
      end
  end.

Definition ReportError (loc : string * nat) (fm : string) (vals : list Value) : M unit :=
  fun w =>
    let suffix := ReportError_suffix w in
    let err := Errorf (fm ++ suffix)%string vals in
    Record_ (mkError (Some err) (fst loc) (snd loc)) w.

(** *** eval.go: [Execute] *)

(** [len(Context.Errors.(MultiError))]: the assertion has no comma-ok
    form, so it panics on the nil interface. *)
Definition Errors_count : M nat :=
  fun w =>
    match CtxErrors (Context w) with
    | None => Panics NilErrorsAssertion
    | Some m => Returns (List.length m) w
    end.

(** [Context.Stack = Context.Stack[:len(Context.Stack)-1]]. *)
Definition Stack_pop : M unit :=
  fun w =>
    match Stack (Context w) with
    | [] => Panics SliceBounds
    | s => Returns tt (set_Stack (removelast s) w)
    end.

Definition Stack_push (def : Expr) : M unit :=
  fun w => Returns tt (set_Stack (Stack (Context w) ++ [def]) w).

Definition Execute (dsl : option (M unit)) (def : Expr) : M bool :=
  match dsl with
  | None => ret true
  | Some f =>
      initCount <- Errors_count ;;
      Stack_push def ;;;
      f ;;;
      Stack_pop ;;;
      n <- Errors_count ;;
      ret (n <=? initCount)%nat
  end.

(** *** eval.go: [ValidationErrors] *)

Definition Merge (verr : ValidationErrors) (err : option ValidationErrors) : ValidationErrors :=
  match err with
  | None => verr
  | Some e => mkValidationErrors (Errors verr ++ Errors e) (Exprs verr ++ Exprs e)
  end.

Definition AddError (verr : ValidationErrors) (def : Expr) (err : option error) : ValidationErrors :=
  match err with
  | Some (ValidationErrorsRef v_errs v_exprs) =>
      mkValidationErrors (Errors verr ++ v_errs) (Exprs verr ++ v_exprs)
  | _ =>
      mkValidationErrors (Errors verr ++ [err]) (Exprs verr ++ [def])
  end.

Definition Add (verr : ValidationErrors) (def : Expr) (format : string) (vals : list Value)
  : ValidationErrors :=
  AddError verr def (Some (Errorf format vals)).

(** [fmt.Sprintf("%s: %s", name, err)] for a string and an [error]
    operand, given the operand's [Error()] text ([None] when that method
    panics, which [fmt] recovers from). *)
Definition Sprintf_line (name : string) (err : option (option string)) : string :=
  (name ++ ": " ++ match err with
                   | None => "%!s(<nil>)"
                   | Some (Some s) => s
                   | Some None => fmt_recovered
                   end)%string.

(** The loop of the [Error] method of [ValidationErrors], from index [i]
    on: [msg[i] = fmt.Sprintf("%s: %s", verr.Exprs[i].EvalName(), err)].
    [None] is a panic: [verr.Exprs[i]] out of range, or [EvalName] called
    through a nil [Expr].  [text] is the [Error] method of the operands. *)
Fixpoint Error_lines (text : error -> option string) (h : Heap) (exprs : list Expr)
         (errs : list (option error)) (i : nat) : option (list string) :=
  match errs with
  | [] => Some []
  | err :: rest =>
      match nth_error exprs i with
      | None => None
      | Some x =>
          match EvalName x h with
          | None => None
          | Some name =>
              match Error_lines text h exprs rest (S i) with
              | None => None
              | Some ls => Some (Sprintf_line name (option_map text err) :: ls)
              end
          end
      end
  end.

(** [err.Error()] for the values of [error]; for a batch this is the
    [Error] method of [ValidationErrors]. *)
Fixpoint error_Error (h : Heap) (e : error) : option string :=
  match e with
  | errorString msg => Some msg
  | ValidationErrorsRef errs exprs =>
      option_map (fun msg => Join msg NL) (Error_lines (error_Error h) h exprs errs 0)
  end.

Definition ValidationErrors_Error (h : Heap) (verr : ValidationErrors) : option string :=
  error_Error h (batch_error verr).

(** An [error] that is not itself a batch. *)
Definition not_batch (err : option error) : Prop :=
  match err with
  | Some (ValidationErrorsRef _ _) => False
  | _ => True
  end.

(** A batch none of whose recorded errors is a batch. *)
Definition flat (verr : ValidationErrors) : Prop := Forall not_batch (Errors verr).

Definition flat_error (err : option error) : Prop :=
  match err with
  | Some (ValidationErrorsRef errs _) => Forall not_batch errs
  | _ => True
  end.

(** The line "<owner-name>: <message>". *)
Definition owner_line (owner_message : string * string) : string :=
  (fst owner_message ++ ": " ++ snd owner_message)%string.

(** The line the specification expects for an error reported by the
    initializer of an expression called [name]: "<name>: <message>", with
    "top-level" for an expression without a name. *)
Definition specified_report_line (name msg : string) : string :=
  ((if String.eqb name EmptyString then "top-level" else name) ++ ": " ++ msg)%string.

(** The invariant of a batch: as many owners as errors. *)
Definition paired (verr : ValidationErrors) : Prop :=
  List.length (Errors verr) = List.length (Exprs verr).

(** The same for an [error] handed to [AddError], which matters when it
    is itself a batch. *)
Definition paired_error (err : option error) : Prop :=
  match err with
  | Some (ValidationErrorsRef errs exprs) => List.length errs = List.length exprs
  | _ => True
  end.

(** *** context.go: [SortRoots] *)

Definition placed_in (placed : list Root) (d : Root) : bool :=
  if in_dec Root_eq_dec d placed then true else false.

(** All the roots [r] depends on have been given a place. *)
Definition ready (placed : list Root) (r : Root) : bool :=
  forallb (placed_in placed) (DependsOn r).

(** The first pending root, in registration order, that is ready, and the
    pending roots without it. *)
Fixpoint pick (placed pending : list Root) : option (Root * list Root) :=
  match pending with
  | [] => None
  | r :: rest =>
      if ready placed r then Some (r, rest)
      else match pick placed rest with
           | Some (x, rest') => Some (x, r :: rest')
           | None => None
           end
  end.

Definition cycle_error (stuck : list Root) : error :=
  errorString ("dependency cycle: " ++ Join (map DSLName stuck) ", ")%string.

Fixpoint schedule (fuel : nat) (placed pending : list Root) : list Root + error :=
  match pending with
  | [] => inl placed
  | _ =>
      match fuel with
      | 0 => inr (cycle_error pending)
      | S fuel' =>
          match pick placed pending with
          | Some (r, rest) => schedule fuel' (placed ++ [r]) rest
          | None => inr (cycle_error pending)
          end
      end
  end.

(** Modelled from the spec: [DSLContext.SortRoots] of context.go, which is
    not part of the sources at hand.  The registered roots are ordered so
    that every root comes after the roots it depends on; among the roots
    that could come next, the one registered first is taken (ties: stable,
    registration order); when no pending root can come next the
    dependency relation has a cycle and scheduling fails with an error
    naming the roots that are stuck. *)
Definition SortRoots (c : DSLContext) : list Root + error :=
  schedule (List.length (roots c)) [] (roots c).

(** The vocabulary of the scheduler's contract. *)

(** [r] depends on [d]. *)
Definition depends (r d : Root) : Prop := In d (DependsOn r).

(** No root of [rs] reaches itself through dependencies. *)
Definition acyclic (rs : list Root) : Prop :=
  forall r, In r rs -> ~ clos_trans Root depends r r.

(** The roots that registered roots depend on are registered. *)
Definition closed (rs : list Root) : Prop :=
  forall r d, In r rs -> depends r d -> In d rs.

(** Every root comes after all the roots it depends on. *)
Definition dependencies_first (out : list Root) : Prop :=
  forall l1 r l2, out = l1 ++ r :: l2 -> forall d, depends r d -> In d l1.

(** [a] occurs in [l] and [b] occurs later. *)
Fixpoint before (l : list Root) (a b : Root) : Prop :=
  match l with
  | [] => False
  | x :: rest => (x = a /\ In b rest) \/ before rest a b
  end.

(** Neither root depends on the other, directly or not. *)
Definition independent (a b : Root) : Prop :=
  ~ clos_trans Root depends a b /\ ~ clos_trans Root depends b a.

(** Any two mutually independent roots come in the order they were
    registered in. *)
Definition keeps_registration_order (rs out : list Root) : Prop :=
  forall a b, independent a b -> before rs a b -> before out a b.

(** A root is overtaken by a root registered after it only while one of
    the roots it depends on has no place yet. *)
Definition overtaken_only_waiting (rs out : list Root) : Prop :=
  forall l1 r l2 r',
    out = l1 ++ r :: l2 -> In r' l2 -> before rs r' r ->
    exists d, depends r' d /\ ~ In d l1.

(** A path along [depends] leaving [r]. *)
Fixpoint chain (r : Root) (l : list Root) : Prop :=
  match l with
  | [] => True
  | d :: rest => depends r d /\ chain d rest
  end.

(** *** eval.go: [runSet] *)

Definition asSource (def : Expr) : option (World -> option (M unit)) :=
  match def with
  | exprObj o => Source_DSL o
  | _ => None
  end.

(** The body of [for _, def := range set[executed:]]: the range
    expression is evaluated once, [defs] is its value. *)
Fixpoint runSet_range (defs : list Expr) (executed : nat) : M nat :=
  match defs with
  | [] => ret executed
  | def :: rest =>
      let executed := S executed in
      match asSource def with
      | Some DSL => (fun w => Execute (DSL w) def w) ;;; runSet_range rest executed
      | None => runSet_range rest executed
      end
  end.

(** The two [fmt.Errorf] values of the caps; their formats have neither
    verbs nor operands, so the messages are the formats. *)
Definition tooManyExpressions : engineError :=
  plainError (errorString "too many generated expressions, infinite loop?").

Definition tooManyRoots : engineError :=
  plainError (errorString "too many generated roots, infinite loop?").

(** [for executed < len(set) { ... }]; [set] is the slice value the
    function received, so [len(set)] is the same at every test: an
    [append] by a callback changes the caller's slice, not this one.  (A
    callback that stores into the elements of the shared array, rather
    than appending, is not modelled.) *)
Fixpoint runSet_loop (fuel : nat) (set : ExprSet) (executed recursed : nat)
  : M (option engineError) :=
  match fuel with
  | 0 => fun _ => Timeout
  | S fuel' =>
      if (executed <? List.length set)%nat then
        let recursed := S recursed in
        executed <- runSet_range (skipn executed set) executed ;;
        if (100 <? recursed)%nat then ret (Some tooManyExpressions)
        else runSet_loop fuel' set executed recursed
      else ret None
  end.

(** The cap lets the loop body run 101 times at most. *)
Definition runSet (set : ExprSet) : M (option engineError) :=
  runSet_loop 101 set 0 0.

(** One pass over the set the function received: what the loop of
    [runSet] amounts to (lemma [runSet_single_pass]). *)
Definition runSet_pass (set : ExprSet) : M (option engineError) :=
  runSet_range set 0 ;;; ret None.

(** *** eval.go: [validateSet] *)

Definition asValidator (def : Expr) : option (M (option error)) :=
  match def with
  | exprObj o => Validator_Validate o
  | _ => None
  end.

Fixpoint validateSet_range (defs : list Expr) (errors : ValidationErrors)
  : M ValidationErrors :=
  match defs with
  | [] => ret errors
  | def :: rest =>
      match asValidator def with
      | Some Validate =>
          err <- Validate ;;
          match err with
          | Some _ => validateSet_range rest (AddError errors def err)
          | None => validateSet_range rest errors
          end
      | None => validateSet_range rest errors
      end
  end.

Definition validateSet (set : ExprSet) : M (option engineError) :=
  errors <- validateSet_range set (mkValidationErrors [] []) ;;
  (if (0 <? List.length (Errors errors))%nat
   then Record_ (mkError (Some (batch_error errors)) EmptyString 0)
   else ret tt) ;;;
  (fun w => Returns (Context_Errors w) w).

(** *** eval.go: [finalizeSet] *)

Definition asFinalizer (def : Expr) : option (M unit) :=
  match def with
  | exprObj o => Finalizer_Finalize o
  | _ => None
  end.

Fixpoint finalizeSet_range (defs : list Expr) : M unit :=
  match defs with
  | [] => ret tt
  | def :: rest =>
      match asFinalizer def with
      | Some Finalize => Finalize ;;; finalizeSet_range rest
      | None => finalizeSet_range rest
      end
  end.

Definition finalizeSet (set : ExprSet) : M (option engineError) :=
  finalizeSet_range set ;;; ret None.

(** *** eval.go: [RunDSL] *)

(** [for _, root := range roots { root.IterateSets(it) }]. *)
Fixpoint iterate (rs : list Root) (it : ExprSet -> M (option engineError)) : M unit :=
  match rs with
  | [] => ret tt
  | root :: rest => IterateSets root it ;;; iterate rest it
  end.

(** [for executed < len(roots) { ... }]; [roots] is the local slice
    [SortRoots] returned. *)
Fixpoint RunDSL_loop (fuel : nat) (rs : list Root) (executed recursed : nat)
  : M (option engineError) :=
  match fuel with
  | 0 => fun _ => Timeout
  | S fuel' =>
      if (executed <? List.length rs)%nat then
        let recursed := S recursed in
        let start := executed in
        let executed := List.length rs in
        iterate (skipn start rs) runSet ;;;
        if (100 <? recursed)%nat then ret (Some tooManyRoots)
        else RunDSL_loop fuel' rs executed recursed
      else ret None
  end.

(** Phase 1 of [RunDSL], lines 24 to 37. *)
Definition executePhase (rs : list Root) : M (option engineError) :=
  RunDSL_loop 101 rs 0 0.

(** One pass over the roots [SortRoots] returned: what the loop of the
    execute phase amounts to (lemma [executePhase_single_pass]). *)
Definition executePass (rs : list Root) : M (option engineError) :=
  iterate rs runSet ;;; ret None.

(** [if Context.Errors != nil { return Context.Errors }], then [rest]. *)
Definition gate (rest : M (option engineError)) : M (option engineError) :=
  fun w =>
    match Context_Errors w with
    | Some errs => Returns (Some errs) w
    | None => rest w
    end.

Definition RunDSL : M (option engineError) :=
  fun w =>
    match SortRoots (Context w) with
    | inr err => Returns (Some (plainError err)) w
    | inl rs =>
        if (List.length rs =? 0)%nat then Returns None w
        else
          (capped <- executePhase rs ;;
           match capped with
           | Some err => ret (Some err)
           | None =>
               gate (iterate rs validateSet ;;;
                     gate (iterate rs finalizeSet ;;;
                           ret None))
           end) w
    end.

(** Lines 26 to 51 of [RunDSL], entered with the loop counters
    [executed] and [recursed] at the given values; [RunDSL] enters them at
    0 and 0 (lemma [RunDSL_enters_loop]). *)
Definition RunDSL_from (rs : list Root) (executed recursed : nat) : M (option engineError) :=
  capped <- RunDSL_loop 101 rs executed recursed ;;
  match capped with
  | Some err => ret (Some err)
  | None =>
      gate (iterate rs validateSet ;;;
            gate (iterate rs finalizeSet ;;;
                  ret None))
  end.

(** *** Callbacks that keep the engine's discipline *)

(** A callback that returns, leaves the stack as it found it and leaves
    [Context.Errors] a [MultiError] with no fewer records than before: what
    a DSL that only builds expressions and calls [ReportError] does. *)
Definition orderly (f : M unit) : Prop :=
  forall (w : World) (m : MultiError),
    CtxErrors (Context w) = Some m ->
    exists w2 m2,
      f w = Returns tt w2 /\
      Stack (Context w2) = Stack (Context w) /\
      CtxErrors (Context w2) = Some m2 /\
      (List.length m <= List.length m2)%nat.

(** *** eval.go: [IncompatibleDSL] *)

(** A string boxed as an operand of [fmt]. *)
Variable Value_of_string : string -> Value.

(** [name] is what [caller()] returns, the name of the calling function
    as the Go call stack gives it.  The index [len(elems)-1] is in range
    because [strings.Split] never returns an empty slice (lemma
    [Split_not_empty]). *)
Definition IncompatibleDSL (name : string) (loc : string * nat) : M unit :=
  let elems := Split name "."%char in
  ReportError loc "invalid use of %s" [Value_of_string (last elems EmptyString)].

End Engine.

(** The types take their parameters explicitly. *)
Arguments Expr : clear implicits.
Arguments ExprSet : clear implicits.
Arguments Root : clear implicits.
Arguments error : clear implicits.
Arguments ValidationErrors : clear implicits.
Arguments Error : clear implicits.
Arguments MultiError : clear implicits.
Arguments engineError : clear implicits.
Arguments DSLContext : clear implicits.
Arguments World : clear implicits.
Arguments M : clear implicits.

Notation "x <- m ;; k" := (bind m (fun x => k))
  (at level 61, m at next level, right associativity).
Notation "m ;;; k" := (bind m (fun _ => k))
  (at level 61, right associativity).

End eval.

Import eval.

(** ** A small DSL implementation

    Expression and root objects are numbered; the object graph holds two
    expression sets, owned by root 0 and root 1, and a trace of the
    callbacks that ran. *)
Module Demo.

Record graph : Type := mkGraph {
  setA : list (Expr nat);
  setB : list (Expr nat);
  trace : list string
}.

Definition W : Type := World nat nat graph.
Definition Cb (A : Type) : Type := M nat nat graph A.

Definition note (s : string) : Cb unit :=
  fun w =>
    Returns tt (mkWorld (Context w)
                  (mkGraph (setA (heap w)) (setB (heap w)) (trace (heap w) ++ [s]))).

(** [root.A = append(root.A, e)]. *)
Definition appendA (e : Expr nat) : Cb unit :=
  fun w =>
    Returns tt (mkWorld (Context w)
                  (mkGraph (setA (heap w) ++ [e]) (setB (heap w)) (trace (heap w)))).

Definition names (o : nat) (_ : graph) : string :=
  match o with
  | 5 => EmptyString
  | 6 => "resource bottle"
  | 7 => "resource bottle"
  | 8 => "action show"
  | _ => "expression"
  end.

Definition verbs (_ : string) (_ : list unit) : string := EmptyString.

Definition here : string * nat := ("design.go", 12).

Definition report (fm : string) : Cb unit := ReportError names verbs here fm [].

Definition dsl (o : nat) : option (W -> option (Cb unit)) :=
  match o with
  | 0 => Some (fun _ => Some (note "ran 0" ;;; Register 1))
  | 1 => Some (fun _ => Some (note "ran 1"))
  | 2 => Some (fun _ => Some (note "ran 2" ;;; appendA (exprObj 3)))
  | 3 => Some (fun _ => Some (note "ran 3"))
  | 4 => Some (fun _ => Some (note "ran 4" ;;; appendA (exprObj 4)))
  | 5 => Some (fun _ => Some (report "bad value"))
  | 6 => Some (fun _ => Some (report "bad value"))
  | _ => None
  end.

Definition validate (o : nat) : option (Cb (option (error nat))) :=
  match o with
  | 7 => Some (note "validated 7" ;;;
               ret (Some (ValidationErrorsRef
                            [Some (errorString "missing name");
                             Some (errorString "missing view")]
                            [exprObj 8; exprObj 8])))
  | 8 => Some (note "validated 8" ;;; ret (Some (errorString "no response")))
  | 1 => Some (note "validated 1" ;;; ret None)
  | _ => None
  end.

Definition finalize (o : nat) : option (Cb unit) :=
  match o with
  | 1 => Some (note "finalized 1")
  | 5 => Some (note "finalized 5")
  | 8 => Some (note "finalized 8")
  | _ => None
  end.

Definition iterateSets (r : nat) (it : ExprSet nat -> Cb (option (engineError nat))) : Cb unit :=
  fun w =>
    match r with
    | 0 => (it (setA (heap w)) ;;; ret tt) w
    | 1 => (it (setB (heap w)) ;;; ret tt) w
    | _ => Returns tt w
    end.

Definition dslName (r : nat) : string :=
  match r with
  | 2 => "A"
  | 3 => "B"
  | 4 => "C"
  | 5 => "X"
  | 6 => "Y"
  | _ => "root"
  end.

(** Root 2 depends on root 4; roots 5 and 6 depend on each other. *)
Definition dependsOn (r : nat) : list nat :=
  match r with
  | 2 => [4]
  | 5 => [6]
  | 6 => [5]
  | _ => []
  end.

Definition run : Cb (option (engineError nat)) :=
  RunDSL dsl validate finalize iterateSets dslName dependsOn Nat.eq_dec.

Definition start (rs : list nat) (errs : option (MultiError nat))
  (a b : list (Expr nat)) : W :=
  mkWorld (mkContext [] errs rs) (mkGraph a b []).

(** An error reported while the design was declared, before the run. *)
Definition declared : Error nat :=
  mkError (Some (errorString "invalid use of View (top level)")) "design.go" 3.

(** The state inside the initializer of expression [o], run from an empty
    stack. *)
Definition inside (o : nat) (errs : option (MultiError nat)) : W :=
  mkWorld (mkContext [exprObj o] errs [0]) (mkGraph [exprObj o] [] []).

Definition bad_value (suffix : string) : Error nat :=
  mkError (Some (errorString ("bad value" ++ suffix))) "design.go" 12.

(** The state a callback leaves, when it returns. *)
Definition after {A : Type} (m : Cb A) (w : W) : W :=
  match m w with
  | Returns _ w' => w'
  | _ => w
  end.

(** A design with an error from its declaration and two initializers
    that report one error each. *)
Definition reporting : W :=
  start [0; 1] (Some [declared]) [exprObj 6; exprObj 5] [exprObj 1].

Definition reporting_executed : W :=
  Eval vm_compute in after (executePhase dsl iterateSets [0; 1]) reporting.

(** A design without initializers whose validators fail. *)
Definition invalid : W := start [0; 1] None [exprObj 7; exprObj 8] [].

(** A design whose only initializer appends a copy of its expression to
    the set, each time it runs. *)
Definition looping : W := start [0] (Some [declared]) [exprObj 4] [].

Definition looping_run : W := Eval vm_compute in after run looping.

Definition invalid_validated : W :=
  Eval vm_compute in after (iterate iterateSets [0; 1] (validateSet validate)) invalid.

Definition batch7 : error nat :=
  ValidationErrorsRef
    [Some (errorString "missing name"); Some (errorString "missing view")]
    [exprObj 8; exprObj 8].

End Demo.

(** ** Attribute validations (package [design])

    The validation rules of an attribute and the operations that combine
    them.  [Value] is the type of the enum values, [F] that of the
    [float64] bounds, with the two comparisons the code applies to
    them. *)
Module design.

Section Validation.

Context {Value F : Type}.

(** [x > y] and [x < y] on [float64]. *)
Variable gtF : F -> F -> bool.
Variable ltF : F -> F -> bool.

(** [ValidationExpr]: a nil slice of values and the nil pointers are
    [None]; [Required] is never tested for nil. *)
Record ValidationExpr : Type := mkValidationExpr {
  Values : option (list Value);
  Format : string;
  Pattern : string;
  Minimum : option F;
  Maximum : option F;
  MinLength : option Z;
  MaxLength : option Z;
  Required : list string
}.

(** The [EvalName] method of [AttributeExpr]. *)
Definition AttributeExpr_EvalName : string := "attribute".

(** The [Context] method. *)
Definition Context : string := "validation".

(** The inner loop of [AddRequired]: is [r] among [required]? *)
Definition found (r : string) (required : list string) : bool :=
  existsb (fun rr => String.eqb r rr) required.

(** The outer loop of [AddRequired], on the value of [v.Required]. *)
Fixpoint AddRequired_range (required : list string) (vRequired : list string) : list string :=
  match required with
  | [] => vRequired
  | r :: rest =>
      AddRequired_range rest (if found r vRequired then vRequired else vRequired ++ [r])
  end.

Definition set_Required (v : ValidationExpr) (required : list string) : ValidationExpr :=
  mkValidationExpr (Values v) (Format v) (Pattern v) (Minimum v) (Maximum v)
                   (MinLength v) (MaxLength v) required.

(** [v.AddRequired(required)]: the receiver after the call. *)
Definition AddRequired (v : ValidationExpr) (required : list string) : ValidationExpr :=
  set_Required v (AddRequired_range required (Required v)).

(** [if v.X == nil || (other.X != nil && cmp( *v.X, *other.X)) { v.X = other.X }]. *)
Definition take_other {A : Type} (cmp : A -> A -> bool) (vX otherX : option A) : option A :=
  match vX with
  | None => otherX
  | Some x =>
      match otherX with
      | Some y => if cmp x y then otherX else vX
      | None => vX
      end
  end.

(** [v.Merge(other)]: the receiver after the call; [None] is the panic of
    reading a field through a nil [other]. *)
Definition Merge (v : ValidationExpr) (other : option ValidationExpr) : option ValidationExpr :=
  match other with
  | None => None
  | Some o =>
      Some (AddRequired
              (mkValidationExpr
                 (match Values v with None => Values o | Some _ => Values v end)
                 (if String.eqb (Format v) EmptyString then Format o else Format v)
                 (if String.eqb (Pattern v) EmptyString then Pattern o else Pattern v)
                 (take_other gtF (Minimum v) (Minimum o))
                 (take_other ltF (Maximum v) (Maximum o))
                 (take_other Z.gtb (MinLength v) (MinLength o))
                 (take_other Z.ltb (MaxLength v) (MaxLength o))
                 (Required v))
              (Required o))
  end.

Definition is_set {A : Type} (p : option A) : bool :=
  match p with
  | Some _ => true
  | None => false
  end.

Definition HasRequiredOnly (v : ValidationExpr) : bool :=
  if (0 <? List.length (match Values v with None => [] | Some vs => vs end))%nat then false
  else if negb (String.eqb (Format v) EmptyString) || negb (String.eqb (Pattern v) EmptyString)
  then false
  else if is_set (Minimum v) || is_set (Maximum v) || is_set (MaxLength v) then false
  else true.

End Validation.

Arguments ValidationExpr : clear implicits.

End design.

(** ** DSL functions that use the engine (package [dsl])

    [Reference], [TypeName] and [Media] look at the current expression
    and either store into it or report a misuse.  The expression types of
    package [design] are not needed beyond the type tests: [typeOf] is the
    dynamic type of an expression object, and the [store_] functions are
    the assignments to its fields.  An expression object is a pointer
    that is not nil; [loc] is what [computeErrorLocation()] returns for
    the call of the DSL function. *)
Module dsl.

Inductive exprType : Type :=
| MediaTypeExpr
| AttributeExpr
| UserTypeExpr
| ResponseExpr
| otherExpr.

Section DSL.

Context {ExprObj RootObj Heap Value DataType : Type}.
Variable EvalName_obj : ExprObj -> Heap -> string.
Variable fmt_verbs : string -> list Value -> string.
Variable Value_of_string : string -> Value.

Variable typeOf : ExprObj -> exprType.
Variable store_Reference : ExprObj -> DataType -> Heap -> Heap.
Variable store_TypeName : ExprObj -> string -> Heap -> Heap.
Variable store_MediaType : ExprObj -> string -> Heap -> Heap.
Variable store_ViewName : ExprObj -> string -> Heap -> Heap.
(** [m.Identifier] *)
Variable Identifier : ExprObj -> Heap -> string.

(** The import path of this package: [caller()] names a function of it
    as the path, a dot and the function. *)
Variable pkg : string.

(** The type of the current expression; [Top] is none of the tested
    types. *)
Definition currentType (w : World ExprObj RootObj Heap) : option (ExprObj * exprType) :=
  match Current w with
  | exprObj o => Some (o, typeOf o)
  | _ => None
  end.

Definition store (f : Heap -> Heap) : M ExprObj RootObj Heap unit :=
  fun w => Returns tt (mkWorld (Context w) (f (heap w))).

Definition misuse (function : string) (loc : string * nat) : M ExprObj RootObj Heap unit :=
  IncompatibleDSL EvalName_obj fmt_verbs Value_of_string (pkg ++ "." ++ function)%string loc.

(** The record such a call leaves in [Context.Errors]: "invalid use of
    %s" followed by the suffix [ReportError] adds, with the function as
    the operand. *)
Definition misuse_record (function : string) (loc : string * nat) (suffix : string)
  : Error ExprObj :=
  mkError (Some (Errorf fmt_verbs ("invalid use of %s" ++ suffix)%string
                        [Value_of_string function]))
          (fst loc) (snd loc).

Definition Reference (loc : string * nat) (t : DataType) : M ExprObj RootObj Heap unit :=
  fun w =>
    match currentType w with
    | Some (def, MediaTypeExpr) => store (store_Reference def t) w
    | Some (def, AttributeExpr) => store (store_Reference def t) w
    | _ => misuse "Reference" loc w
    end.

Definition TypeName (loc : string * nat) (name : string) : M ExprObj RootObj Heap unit :=
  fun w =>
    match currentType w with
    | Some (def, MediaTypeExpr) => store (store_TypeName def name) w
    | Some (def, UserTypeExpr) => store (store_TypeName def name) w
    | _ => misuse "TypeName" loc w
    end.

(** The argument [val] of [Media]: a pointer to a media type (nil or
    not), a string, or a value of another type. *)
Inductive mediaValue : Type :=
| mediaPointer (m : option ExprObj)
| mediaString (identifier : string)
| mediaOther (v : Value).

Definition Media (loc : string * nat) (val : mediaValue) (viewName : list string)
  : M ExprObj RootObj Heap unit :=
  fun w =>
    match currentType w with
    | Some (r, ResponseExpr) =>
        ((match val with
          | mediaPointer (Some m) => fun w1 => store (store_MediaType r (Identifier m (heap w1))) w1
          | mediaPointer None => ret tt
          | mediaString identifier => store (store_MediaType r identifier)
          | mediaOther v =>
              ReportError EvalName_obj fmt_verbs loc
                "media type must be a string or a pointer to MediaTypeExpr, got %#v" [v]
          end) ;;;
         match viewName with
         | [] => ret tt
         | [view] => store (store_ViewName r view)
         | _ => ReportError EvalName_obj fmt_verbs loc
                  "too many arguments given to DefaultMedia" []
         end) w
    | _ => misuse "Media" loc w
    end.

End DSL.

End dsl.

(** ** A second small DSL implementation

    Expressions of the types the functions of package [dsl] test for,
    over the object graph of [Demo], whose trace shows the stores; and an
    expression whose [DSL()] is nil and whose finalizer reports an
    error. *)
Module Sample.

Definition names (o : nat) (_ : Demo.graph) : string :=
  match o with
  | 20 => "media type bottle"
  | 21 => "attribute name"
  | 22 => "response OK"
  | 23 => "type account"
  | 24 => "resource bottle"
  | _ => EmptyString
  end.

Definition typeOf (o : nat) : dsl.exprType :=
  match o with
  | 20 => dsl.MediaTypeExpr
  | 21 => dsl.AttributeExpr
  | 22 => dsl.ResponseExpr
  | 23 => dsl.UserTypeExpr
  | _ => dsl.otherExpr
  end.

(** [fmt] with string operands, for the verb [%s] alone. *)
Fixpoint verbs (format : string) (vals : list string) : string :=
  match format with
  | EmptyString => EmptyString
  | String c rest =>
      match rest with
      | String d rest' =>
          if (Ascii.eqb c "%" && Ascii.eqb d "s")%bool then
            match vals with
            | v :: vs => (v ++ verbs rest' vs)%string
            | [] => ("%!s(MISSING)" ++ verbs rest' [])%string
            end
          else String c (verbs rest vals)
      | EmptyString => String c EmptyString
      end
  end.

Definition mark (s : string) (h : Demo.graph) : Demo.graph :=
  Demo.mkGraph (Demo.setA h) (Demo.setB h) (Demo.trace h ++ [s]).

Definition store_field (field : string) (o : nat) (value : string) (h : Demo.graph)
  : Demo.graph :=
  mark (names o h ++ ": " ++ field ++ " = " ++ value) h.

Definition Identifier (o : nat) (_ : Demo.graph) : string :=
  match o with
  | 20 => "application/vnd.bottle"
  | _ => EmptyString
  end.

(** Expressions whose name holds a verb. *)
Definition rate (_ : nat) (_ : Demo.graph) : string := "rate 100%s".

Definition pkg : string := "github.com/goadesign/goa/design/dsl".

Definition Reference (t : string) : Demo.Cb unit :=
  dsl.Reference names verbs (fun s => s) typeOf (store_field "Reference") pkg Demo.here t.

Definition TypeName (name : string) : Demo.Cb unit :=
  dsl.TypeName names verbs (fun s => s) typeOf (store_field "TypeName") pkg Demo.here name.

Definition Media (val : dsl.mediaValue (ExprObj := nat) (Value := string))
  (viewName : list string) : Demo.Cb unit :=
  dsl.Media names verbs (fun s => s) typeOf (store_field "MediaType") (store_field "ViewName")
            Identifier pkg Demo.here val viewName.

Definition invalid_use (function suffix : string) : Error nat :=
  mkError (Some (errorString ("invalid use of " ++ function ++ suffix))) "design.go" 12.

(** Expression 30 is a [Source] whose [DSL()] is nil; its validator finds
    nothing and its finalizer reports an error.  Expression 31 is a plain
    expression. *)
Definition source (o : nat) : option (Demo.W -> option (Demo.Cb unit)) :=
  match o with
  | 30 => Some (fun _ => None)
  | _ => None
  end.

Definition validate (o : nat) : option (Demo.Cb (option (error nat))) :=
  match o with
  | 30 => Some (Demo.note "validated 30" ;;; ret None)
  | _ => None
  end.

Definition finalize (o : nat) : option (Demo.Cb unit) :=
  match o with
  | 30 => Some (ReportError names verbs Demo.here "finalized late" [])
  | _ => None
  end.

Definition run : Demo.Cb (option (engineError nat)) :=
  RunDSL source validate finalize Demo.iterateSets Demo.dslName Demo.dependsOn Nat.eq_dec.

(** A design without initializers and without errors. *)
Definition clean : Demo.W := Demo.start [0] None [exprObj 30; exprObj 31] [].

Definition clean_run : Demo.W := Eval vm_compute in Demo.after run clean.

(** An attribute validation: one of two values, at most ten characters,
    with one required field. *)
Definition rules : design.ValidationExpr string Z :=
  design.mkValidationExpr (Some ["red"; "white"]) EmptyString EmptyString
                          (Some 1%Z) None None (Some 10%Z) ["name"].

(** A validation that requires fields and limits the least length. *)
Definition required_only : design.ValidationExpr string Z :=
  design.mkValidationExpr None EmptyString EmptyString None None (Some 2%Z) None
                          ["name"; "vintage"].

End Sample.

(** * Properties *)

Section EngineFacts.

Context {ExprObj RootObj Heap Value : Type}.
Variable EvalName_obj : ExprObj -> Heap -> string.
Variable fmt_verbs : string -> list Value -> string.
Variable fmt_recovered : string.


Local Abbreviation World := (World ExprObj RootObj Heap).
Local Abbreviation M := (M ExprObj RootObj Heap).
Local Abbreviation Expr := (Expr ExprObj).
Local Abbreviation Root := (Root RootObj).
Local Abbreviation ReportError := (ReportError EvalName_obj fmt_verbs).
Local Abbreviation ReportError_suffix := (ReportError_suffix EvalName_obj).

Variable Source_DSL : ExprObj -> option (World -> option (M unit)).
Variable Validator_Validate : ExprObj -> option (M (option (error ExprObj))).
Variable Finalizer_Finalize : ExprObj -> option (M unit).
Variable IterateSets : Root -> (ExprSet ExprObj -> M (option (engineError ExprObj))) -> M unit.
Variable DSLName : Root -> string.
Variable DependsOn : Root -> list Root.
Variable Root_eq_dec : forall a b : Root, {a = b} + {a <> b}.

Local Abbreviation runSet_range := (runSet_range Source_DSL).
Local Abbreviation runSet_loop := (runSet_loop Source_DSL).
Local Abbreviation runSet := (runSet Source_DSL).
Local Abbreviation validateSet_range := (validateSet_range Validator_Validate).
Local Abbreviation validateSet := (validateSet Validator_Validate).
Local Abbreviation finalizeSet := (finalizeSet Finalizer_Finalize).
Local Abbreviation iterate := (iterate IterateSets).
Local Abbreviation RunDSL_loop := (RunDSL_loop Source_DSL IterateSets).
Local Abbreviation executePhase := (executePhase Source_DSL IterateSets).
Local Abbreviation runSet_pass := (runSet_pass Source_DSL).
Local Abbreviation executePass := (executePass Source_DSL IterateSets).
Local Abbreviation SortRoots := (SortRoots (ExprObj := ExprObj) DSLName DependsOn Root_eq_dec).
Local Abbreviation Error_lines := (Error_lines EvalName_obj fmt_recovered).
Local Abbreviation error_Error := (error_Error EvalName_obj fmt_recovered).
Local Abbreviation ValidationErrors_Error := (ValidationErrors_Error EvalName_obj fmt_recovered).
Local Abbreviation asValidator := (asValidator Validator_Validate).
Local Abbreviation depends := (depends DependsOn).
Local Abbreviation acyclic := (acyclic DependsOn).
Local Abbreviation closed := (closed DependsOn).
Local Abbreviation dependencies_first := (dependencies_first DependsOn).
Local Abbreviation overtaken_only_waiting := (overtaken_only_waiting DependsOn).
Local Abbreviation chain := (chain DependsOn).
Local Abbreviation ready := (ready DependsOn Root_eq_dec).
Local Abbreviation pick := (pick DependsOn Root_eq_dec).
Local Abbreviation schedule := (schedule (ExprObj := ExprObj) DSLName DependsOn Root_eq_dec).
Local Abbreviation RunDSL :=
  (RunDSL Source_DSL Validator_Validate Finalizer_Finalize IterateSets
          DSLName DependsOn Root_eq_dec).
Local Abbreviation RunDSL_from :=
  (RunDSL_from Source_DSL Validator_Validate Finalizer_Finalize IterateSets).

(** ** The evaluation stack *)

Lemma Stack_Current_nil : Stack_Current (@nil Expr) = nilExpr.
Proof. reflexivity. Qed.

Lemma Stack_Current_snoc (s : list Expr) (e : Expr) : Stack_Current (s ++ [e]) = e.
Proof. unfold Stack_Current. apply last_last. Qed.

Lemma Current_empty (w : World) : Stack (Context w) = [] -> Current w = Top.
Proof. intros H. unfold Current. rewrite H. reflexivity. Qed.

Lemma Current_snoc (w : World) (s : list Expr) (e : Expr) :
  e <> nilExpr -> Stack (Context w) = s ++ [e] -> Current w = e.
Proof.
  intros Hne H. unfold Current. rewrite H, Stack_Current_snoc.
  destruct e; [contradiction | reflexivity | reflexivity].
Qed.

Lemma Current_same_stack (w w' : World) :
  Stack (Context w') = Stack (Context w) -> Current w' = Current w.
Proof. intros H. unfold Current. rewrite H. reflexivity. Qed.

(** ** [Record] and [ReportError] *)

Lemma Record_appends (err : Error ExprObj) (w : World) :
  Record_ err w = Returns tt (set_Errors (Some (recorded w ++ [err])) w).
Proof.
  unfold Record_, recorded. destruct (CtxErrors (Context w)); reflexivity.
Qed.

Lemma ReportError_unfold (loc : string * nat) (fm : string) (vals : list Value) (w : World) :
  ReportError loc fm vals w =
  Returns tt
    (set_Errors
       (Some (recorded w ++
              [mkError (Some (errorString (Sprintf fmt_verbs (fm ++ ReportError_suffix w)%string vals)))
                 (fst loc) (snd loc)]))
       w).
Proof. unfold eval.ReportError. rewrite Record_appends. reflexivity. Qed.

(** ** [Execute] *)

Lemma Execute_nil_dsl (def : Expr) (w : World) : Execute None def w = Returns true w.
Proof. reflexivity. Qed.

(** C9: in a context without errors, where [Context.Errors] is nil,
    [Execute] with a callback panics on the type assertion that reads the
    error count, before the expression is pushed and the callback run,
    instead of returning true. *)
Theorem Execute_panics_without_errors (f : M unit) (def : Expr) (w : World) :
  CtxErrors (Context w) = None -> Execute (Some f) def w = Panics NilErrorsAssertion.
Proof.
  intros H. unfold Execute, bind, Errors_count. rewrite H. reflexivity.
Qed.

(** The general shape of a returning call: the callback runs on the stack
    with [def] pushed; whatever is on top when it returns is popped. *)
Lemma Execute_returns (f : M unit) (def : Expr) (w w2 : World)
      (m m2 : MultiError ExprObj) (s2 : list Expr) (e2 : Expr) :
  CtxErrors (Context w) = Some m ->
  f (set_Stack (Stack (Context w) ++ [def]) w) = Returns tt w2 ->
  Stack (Context w2) = s2 ++ [e2] ->
  CtxErrors (Context w2) = Some m2 ->
  Execute (Some f) def w = Returns (List.length m2 <=? List.length m)%nat (set_Stack s2 w2).
Proof.
  intros Hm Hf Hs Hm2.
  unfold Execute, bind, Errors_count, Stack_push, Stack_pop, ret.
  rewrite Hm, Hf, Hs.
  destruct (s2 ++ [e2]) eqn:E.
  - destruct s2; discriminate.
  - rewrite <- E, removelast_last. cbn. rewrite Hm2. reflexivity.
Qed.

(** A callback that leaves the stack as it found it: the matching pop
    restores the caller's stack. *)
Lemma Execute_balanced (f : M unit) (def : Expr) (w w2 : World)
      (m m2 : MultiError ExprObj) :
  CtxErrors (Context w) = Some m ->
  f (set_Stack (Stack (Context w) ++ [def]) w) = Returns tt w2 ->
  Stack (Context w2) = Stack (Context w) ++ [def] ->
  CtxErrors (Context w2) = Some m2 ->
  Execute (Some f) def w =
  Returns (List.length m2 <=? List.length m)%nat (set_Stack (Stack (Context w)) w2).
Proof. intros. eapply Execute_returns; eauto. Qed.

Lemma ReportError_suffix_top_level (w : World) :
  Stack (Context w) = [] -> ReportError_suffix w = " (top level)".
Proof. intros H. unfold eval.ReportError_suffix. rewrite H. reflexivity. Qed.

Lemma ReportError_suffix_in (w : World) (s : list Expr) (cur : Expr) (name : string) :
  Stack (Context w) = s ++ [cur] ->
  EvalName EvalName_obj cur (heap w) = Some name ->
  ReportError_suffix w = if String.eqb name EmptyString then EmptyString else (" in " ++ name)%string.
Proof.
  intros H Hn. unfold eval.ReportError_suffix.
  rewrite H, Stack_Current_snoc.
  destruct cur; [discriminate Hn | |]; rewrite Hn; reflexivity.
Qed.

Lemma Sprintf_plain (format : string) :
  has_verb format = false -> Sprintf fmt_verbs format [] = format.
Proof. intros H. unfold Sprintf. rewrite H. reflexivity. Qed.

(** C8: [Current] returns the [Top] sentinel whenever the stack is empty
    and otherwise the expression pushed last and not yet popped; this is
    what a callback run by [Execute] sees for its own expression, reporting
    an error does not change the answer, and once a nested evaluation that
    reported an error has returned the answer is the one from before it. *)
Theorem Current_reports_top_of_stack :
  (forall w : World, Stack (Context w) = [] -> Current w = Top) /\
  (forall (w : World) (s : list Expr) (e : Expr),
      e <> nilExpr -> Stack (Context w) = s ++ [e] -> Current w = e) /\
  (forall (w : World) (def : Expr),
      def <> nilExpr -> Current (set_Stack (Stack (Context w) ++ [def]) w) = def) /\
  (forall (w : World) loc fm vals,
      exists w', ReportError loc fm vals w = Returns tt w' /\ Current w' = Current w) /\
  (forall (w : World) (def : Expr) (m : MultiError ExprObj) loc fm vals,
      CtxErrors (Context w) = Some m ->
      exists w', Execute (Some (ReportError loc fm vals)) def w = Returns false w' /\
                 Current w' = Current w).
Proof.
  split; [exact Current_empty |].
  split; [exact Current_snoc |].
  split.
  { intros w def Hne. apply Current_snoc with (s := Stack (Context w)); auto. }
  split.
  { intros w loc fm vals. eexists. split; [apply ReportError_unfold |].
    apply Current_same_stack. reflexivity. }
  intros w def m loc fm vals Hm.
  eexists. split.
  - rewrite (Execute_balanced (ReportError loc fm vals) def w _ m
               (m ++ [mkError (Some (errorString
                    (Sprintf fmt_verbs
                       (fm ++ ReportError_suffix
                                (set_Stack (Stack (Context w) ++ [def]) w))%string vals)))
                    (fst loc) (snd loc)]) Hm (ReportError_unfold _ _ _ _)).
    + rewrite length_app. cbn [List.length].
      replace (List.length m + 1 <=? List.length m)%nat with false
        by (symmetry; apply Nat.leb_gt; lia).
      reflexivity.
    + reflexivity.
    + cbn. unfold recorded. cbn. rewrite Hm. reflexivity.
  - apply Current_same_stack. reflexivity.
Qed.

Lemma has_verb_app (a b : string) :
  has_verb (a ++ b) = (has_verb a || has_verb b)%bool.
Proof.
  induction a as [| c a IH]; cbn; [reflexivity |].
  destruct (Ascii.eqb c "%"%char); [reflexivity | exact IH].
Qed.

(** Only the name of the current expression can bring a ['%'] into the
    suffix. *)
Lemma ReportError_suffix_verb (w : World) :
  has_verb (ReportError_suffix w) = true ->
  exists (s : list Expr) (cur : Expr) (name : string),
    Stack (Context w) = s ++ [cur] /\
    EvalName EvalName_obj cur (heap w) = Some name /\
    has_verb name = true.
Proof.
  unfold eval.ReportError_suffix, Stack_Current.
  destruct (Stack (Context w)) as [| x l] eqn:Hs; [discriminate |].
  destruct (exists_last (l := x :: l) ltac:(discriminate)) as (s & cur & E).
  rewrite E, last_last. intros H. exists s, cur.
  destruct cur as [| top | o]; [discriminate H | |];
    cbn [EvalName] in H |- *;
    (eexists; split; [reflexivity |]; split; [reflexivity |]);
    match type of H with
    | has_verb (if String.eqb ?n EmptyString then _ else _) = true =>
        destruct (String.eqb n EmptyString); [discriminate H | exact H]
    end.
Qed.

(** C7 (amended): [ReportError] records one error.  Its message is what
    [fmt] makes of the format and a suffix taken together as one format,
    with the operands: the suffix is " (top level)" when the stack is
    empty, " in <name>" when the current expression has a non-empty name,
    and nothing when its name is empty.  Without operands and without a
    ['%'] in the format and in the suffix, the message is the format
    followed by the suffix; otherwise it is what [fmt] yields for the
    whole, the suffix included, and only a ['%'] in the name of the
    current expression can make the suffix hold one. *)
Theorem ReportError_appends_context_suffix
        (loc : string * nat) (fm : string) (vals : list Value) (w : World) :
  exists suffix : string,
    ReportError loc fm vals w =
    Returns tt
      (set_Errors
         (Some (recorded w ++
                [mkError (Some (errorString (Sprintf fmt_verbs (fm ++ suffix)%string vals)))
                   (fst loc) (snd loc)]))
         w) /\
    (Stack (Context w) = [] -> suffix = " (top level)") /\
    (forall (s : list Expr) (cur : Expr) (name : string),
        Stack (Context w) = s ++ [cur] ->
        EvalName EvalName_obj cur (heap w) = Some name ->
        suffix = if String.eqb name EmptyString then EmptyString else (" in " ++ name)%string) /\
    (vals = [] -> has_verb fm = false -> has_verb suffix = false ->
     Sprintf fmt_verbs (fm ++ suffix)%string vals = (fm ++ suffix)%string) /\
    (vals <> [] \/ has_verb fm = true \/ has_verb suffix = true ->
     Sprintf fmt_verbs (fm ++ suffix)%string vals = fmt_verbs (fm ++ suffix)%string vals) /\
    (has_verb suffix = true ->
     exists (s : list Expr) (cur : Expr) (name : string),
       Stack (Context w) = s ++ [cur] /\
       EvalName EvalName_obj cur (heap w) = Some name /\
       has_verb name = true).
Proof.
  exists (ReportError_suffix w).
  split; [apply ReportError_unfold |].
  split; [apply ReportError_suffix_top_level |].
  split; [intros s cur name; apply ReportError_suffix_in |].
  split.
  { intros -> Hfm Hsuffix. apply Sprintf_plain.
    rewrite has_verb_app, Hfm, Hsuffix. reflexivity. }
  split; [| apply ReportError_suffix_verb].
  intros H. unfold Sprintf. destruct vals as [| v vals']; [| reflexivity].
  rewrite has_verb_app.
  destruct H as [H | [H | H]]; [contradiction | |]; rewrite H;
    [| rewrite Bool.orb_true_r]; reflexivity.
Qed.

(** ** [ValidationErrors] *)

Lemma paired_AddError (verr : ValidationErrors ExprObj) (def : Expr)
      (err : option (error ExprObj)) :
  paired verr -> paired_error err -> paired (AddError verr def err).
Proof.
  unfold paired, paired_error, AddError. intros Hv He.
  destruct err as [[msg | errs exprs] |]; cbn [Errors Exprs];
    rewrite !length_app; cbn [List.length]; lia.
Qed.

Lemma paired_Add (verr : ValidationErrors ExprObj) (def : Expr)
      (format : string) (vals : list Value) :
  paired verr -> paired (Add fmt_verbs verr def format vals).
Proof. intros Hv. unfold Add. apply paired_AddError; [exact Hv | exact I]. Qed.

Lemma paired_Merge (verr : ValidationErrors ExprObj) (err : option (ValidationErrors ExprObj)) :
  paired verr -> (forall e, err = Some e -> paired e) -> paired (Merge verr err).
Proof.
  unfold paired, Merge. intros Hv He. destruct err as [e |]; [| exact Hv].
  cbn [Errors Exprs]. rewrite !length_app, Hv, (He e eq_refl). reflexivity.
Qed.

(** C10: a batch has as many owners as errors: the empty batch has, and
    [Add], [AddError] (also when it flattens a batch) and [Merge] keep the
    two lists the same length, so that every index of [Errors] is an index
    of [Exprs] when the batch is rendered. *)
Theorem ValidationErrors_lengths_agree :
  paired (mkValidationErrors (@nil (option (error ExprObj))) []) /\
  (forall (verr : ValidationErrors ExprObj) def format vals,
      paired verr -> paired (Add fmt_verbs verr def format vals)) /\
  (forall (verr : ValidationErrors ExprObj) def err,
      paired verr -> paired_error err -> paired (AddError verr def err)) /\
  (forall (verr : ValidationErrors ExprObj) err,
      paired verr -> (forall e, err = Some e -> paired e) -> paired (Merge verr err)) /\
  (forall (verr : ValidationErrors ExprObj) (i : nat),
      paired verr -> (i < List.length (Errors verr))%nat ->
      exists x, nth_error (Exprs verr) i = Some x).
Proof.
  split; [reflexivity |].
  split; [exact paired_Add |].
  split; [exact paired_AddError |].
  split; [exact paired_Merge |].
  intros verr i Hp Hi. unfold paired in Hp.
  destruct (nth_error (Exprs verr) i) as [x |] eqn:E; [eauto |].
  apply nth_error_None in E. lia.
Qed.

Lemma flat_AddError (verr : ValidationErrors ExprObj) (def : Expr)
      (err : option (error ExprObj)) :
  flat verr -> flat_error err -> flat (AddError verr def err).
Proof.
  unfold flat, flat_error, AddError. intros Hv He.
  destruct err as [[msg | errs exprs] |]; cbn [Errors];
    apply Forall_app; split; auto; repeat constructor.
Qed.

(** Rendering a flat batch whose owners are not nil: one line per error,
    in the order of the lists. *)
Lemma Error_lines_flat (h : Heap) (errs : list (option (error ExprObj))) :
  forall (exprs pre : list Expr) (names msgs : list string),
    Forall2 (fun err msg => err = Some (errorString msg)) errs msgs ->
    Forall2 (fun x name => EvalName EvalName_obj x h = Some name) exprs names ->
    List.length errs = List.length exprs ->
    Error_lines (error_Error h) h (pre ++ exprs) errs (List.length pre) =
    Some (map owner_line (combine names msgs)).
Proof.
  induction errs as [| err rest IH]; intros exprs pre names msgs He Hx Hlen.
  - inversion He; subst. destruct names; reflexivity.
  - inversion He as [| ? msg ? msgs' Herr Hrest]; subst.
    destruct exprs as [| x exprs']; [discriminate Hlen |].
    inversion Hx as [| ? name ? names' Hname Hnames]; subst.
    cbn [eval.Error_lines].
    rewrite nth_error_app2 by lia. rewrite Nat.sub_diag. cbn [nth_error].
    rewrite Hname.
    replace (S (List.length pre)) with (List.length (pre ++ [x]))
      by (rewrite length_app; cbn; lia).
    replace (pre ++ x :: exprs') with ((pre ++ [x]) ++ exprs')
      by (rewrite <- app_assoc; reflexivity).
    rewrite (IH exprs' (pre ++ [x]) names' msgs' Hrest Hnames)
      by (cbn in Hlen; lia).
    reflexivity.
Qed.

Lemma ValidationErrors_Error_flat (h : Heap) (errs : list (option (error ExprObj)))
      (exprs : list Expr) (names msgs : list string) :
  Forall2 (fun err msg => err = Some (errorString msg)) errs msgs ->
  Forall2 (fun x name => EvalName EvalName_obj x h = Some name) exprs names ->
  List.length errs = List.length exprs ->
  ValidationErrors_Error h (mkValidationErrors errs exprs) =
  Some (Join (map owner_line (combine names msgs)) NL).
Proof.
  intros He Hx Hlen.
  unfold eval.ValidationErrors_Error, batch_error. cbn [eval.error_Error Errors Exprs].
  pose proof (Error_lines_flat h errs exprs [] names msgs He Hx Hlen) as E.
  cbn [app List.length] in E. rewrite E. reflexivity.
Qed.

(** ** [validateSet] *)

Lemma validateSet_range_app (a b : list Expr) (errors : ValidationErrors ExprObj) (w : World) :
  validateSet_range (a ++ b) errors w =
  bind (validateSet_range a errors) (fun e => validateSet_range b e) w.
Proof.
  revert errors w. induction a as [| def rest IH]; intros errors w.
  - reflexivity.
  - cbn [app eval.validateSet_range].
    destruct (eval.asValidator Validator_Validate def) as [Validate |].
    + unfold bind. destruct (Validate w) as [err w1 | p |]; try reflexivity.
      destruct err; rewrite IH; reflexivity.
    + apply IH.
Qed.

(** The loop only ever appends to the batch. *)
Lemma validateSet_range_extends (defs : list Expr) :
  forall (errors errors' : ValidationErrors ExprObj) (w w' : World),
    validateSet_range defs errors w = Returns errors' w' ->
    exists te tx, Errors errors' = Errors errors ++ te /\ Exprs errors' = Exprs errors ++ tx.
Proof.
  induction defs as [| def rest IH]; intros errors errors' w w' H.
  - inversion H. exists [], []. rewrite !app_nil_r. auto.
  - cbn [eval.validateSet_range] in H.
    destruct (eval.asValidator Validator_Validate def) as [Validate |]; [| eauto].
    unfold bind in H. destruct (Validate w) as [err w1 | p |]; try discriminate.
    destruct err as [e |]; [| eauto].
    apply IH in H. destruct H as (te & tx & He & Hx).
    destruct e as [msg | errs exprs]; cbn [AddError Errors Exprs] in He, Hx;
      rewrite He, Hx, <- !app_assoc; eauto.
Qed.

(** The line at an index is made of the owner and the error at that
    index. *)
Lemma Error_lines_nth (text : error ExprObj -> option string) (h : Heap)
      (exprs : list Expr) (errs : list (option (error ExprObj))) :
  forall (i : nat) (ls : list string),
    Error_lines text h exprs errs i = Some ls ->
    forall (k : nat) (err : option (error ExprObj)),
      nth_error errs k = Some err ->
      exists x name,
        nth_error exprs (i + k) = Some x /\
        EvalName EvalName_obj x h = Some name /\
        nth_error ls k = Some (Sprintf_line fmt_recovered name (option_map text err)).
Proof.
  induction errs as [| e rest IH]; intros i ls H k err Hk.
  - destruct k; discriminate Hk.
  - cbn [eval.Error_lines] in H.
    destruct (nth_error exprs i) as [x |] eqn:Hx; [| discriminate].
    destruct (EvalName EvalName_obj x h) as [name |] eqn:Hn; [| discriminate].
    destruct (eval.Error_lines EvalName_obj fmt_recovered text h exprs rest (S i))
      as [ls' |] eqn:Hr; [| discriminate].
    inversion H; subst ls. destruct k as [| k].
    + cbn in Hk. inversion Hk; subst e. exists x, name.
      rewrite Nat.add_0_r. auto.
    + cbn in Hk. destruct (IH (S i) ls' Hr k err Hk) as (x' & name' & Hx' & Hn' & Hl).
      exists x', name'. replace (i + S k)%nat with (S i + k)%nat by lia. auto.
Qed.


(** ** The execute phase *)

Lemma runSet_range_count (defs : list Expr) (executed n : nat) (w w' : World) :
  runSet_range defs executed w = Returns n w' -> n = (executed + List.length defs)%nat.
Proof.
  revert executed w. induction defs as [| def rest IH]; intros executed w H.
  - cbn in H. inversion H. cbn. lia.
  - cbn [eval.runSet_range] in H.
    destruct (asSource Source_DSL def) as [DSL |].
    + unfold bind in H.
      destruct (Execute (DSL w) def w) as [b w1 | p |]; try discriminate.
      apply IH in H. cbn [List.length]. lia.
    + apply IH in H. cbn [List.length]. lia.
Qed.

Lemma runSet_loop_single_pass (fuel : nat) (set : ExprSet ExprObj) (w : World) :
  runSet_loop (S (S fuel)) set 0 0 w = runSet_pass set w.
Proof.
  unfold eval.runSet_pass. cbn [eval.runSet_loop].
  destruct set as [| def rest].
  - reflexivity.
  - replace (0 <? List.length (def :: rest))%nat with true by reflexivity.
    cbn [skipn]. unfold bind.
    destruct (runSet_range (def :: rest) 0 w) as [n w' | p |] eqn:E; try reflexivity.
    apply runSet_range_count in E. subst n.
    replace (100 <? 1)%nat with false by reflexivity.
    cbn [Nat.add]. rewrite Nat.ltb_irrefl. reflexivity.
Qed.

Lemma runSet_single_pass (set : ExprSet ExprObj) (w : World) :
  runSet set w = runSet_pass set w.
Proof. apply (runSet_loop_single_pass 99). Qed.

Lemma runSet_returns_nil (set : ExprSet ExprObj) (w w' : World)
      (r : option (engineError ExprObj)) :
  runSet set w = Returns r w' -> r = None.
Proof.
  rewrite runSet_single_pass. unfold eval.runSet_pass, bind, ret.
  destruct (runSet_range set 0 w); intros H; inversion H; reflexivity.
Qed.

Lemma RunDSL_loop_single_pass (fuel : nat) (rs : list Root) (w : World) :
  RunDSL_loop (S (S fuel)) rs 0 0 w = executePass rs w.
Proof.
  unfold eval.executePass. cbn [eval.RunDSL_loop].
  destruct rs as [| root rest].
  - reflexivity.
  - replace (0 <? List.length (root :: rest))%nat with true by reflexivity.
    cbn [skipn]. unfold bind.
    destruct (eval.iterate IterateSets (root :: rest) runSet w) as [u w' | p |];
      try reflexivity.
    replace (100 <? 1)%nat with false by reflexivity.
    rewrite Nat.ltb_irrefl. reflexivity.
Qed.

Lemma executePhase_single_pass (rs : list Root) (w : World) :
  executePhase rs w = executePass rs w.
Proof. apply (RunDSL_loop_single_pass 99). Qed.

Lemma executePhase_returns_nil (rs : list Root) (w w' : World)
      (r : option (engineError ExprObj)) :
  executePhase rs w = Returns r w' -> r = None.
Proof.
  rewrite executePhase_single_pass. unfold eval.executePass, bind, ret.
  destruct (eval.iterate IterateSets rs runSet w); intros H; inversion H; reflexivity.
Qed.

(** ** The scheduler *)

Lemma ready_spec (placed : list Root) (r : Root) :
  ready placed r = true <-> (forall d, depends r d -> In d placed).
Proof.
  unfold eval.ready, eval.depends. rewrite forallb_forall.
  split; intros H d Hd; specialize (H d Hd); unfold placed_in in *;
    destruct (in_dec Root_eq_dec d placed); auto; discriminate.
Qed.

Lemma not_ready_waits (placed : list Root) (r : Root) :
  ready placed r = false -> exists d, depends r d /\ ~ In d placed.
Proof.
  unfold eval.ready, eval.depends. intros H.
  induction (DependsOn r) as [| d ds IH]; cbn in H; [discriminate |].
  apply andb_false_iff in H. destruct H as [H | H].
  - exists d. split; [left; reflexivity |].
    unfold placed_in in H. destruct (in_dec Root_eq_dec d placed); [discriminate | assumption].
  - destruct (IH H) as (d' & Hin & Hn). exists d'. split; [right |]; assumption.
Qed.

Lemma pick_spec (placed pending : list Root) (r : Root) (rest : list Root) :
  pick placed pending = Some (r, rest) ->
  exists a b, pending = a ++ r :: b /\ rest = a ++ b /\
              ready placed r = true /\
              Forall (fun x => ready placed x = false) a.
Proof.
  revert rest. induction pending as [| x xs IH]; intros rest H; [discriminate |].
  cbn [eval.pick] in H. destruct (ready placed x) eqn:Hx.
  - inversion H; subst. exists [], rest. auto.
  - destruct (pick placed xs) as [[y rest'] |]; [| discriminate].
    inversion H; subst.
    destruct (IH rest' eq_refl) as (a & b & -> & -> & Hr & Ha).
    exists (x :: a), b. repeat split; auto.
Qed.

Lemma pick_none (placed pending : list Root) :
  pick placed pending = None -> Forall (fun x => ready placed x = false) pending.
Proof.
  induction pending as [| x xs IH]; intros H; [constructor |].
  cbn [eval.pick] in H. destruct (ready placed x) eqn:Hx; [discriminate |].
  destruct (pick placed xs) as [[y rest'] |]; [discriminate |].
  constructor; auto.
Qed.

Lemma chain_reaches (l : list Root) :
  forall r x, chain r l -> In x l -> clos_trans Root depends r x.
Proof.
  induction l as [| d rest IH]; intros r x Hc Hx; [contradiction |].
  destruct Hc as [Hd Hc]. destruct Hx as [-> | Hx].
  - apply t_step. exact Hd.
  - eapply t_trans; [apply t_step; exact Hd | apply IH; assumption].
Qed.

Lemma chain_NoDup (l : list Root) :
  forall r, (forall x, In x l -> ~ clos_trans Root depends x x) -> chain r l -> NoDup l.
Proof.
  induction l as [| d rest IH]; intros r Hac Hc; [constructor |].
  destruct Hc as [Hd Hc]. constructor.
  - intros Hin. apply (Hac d (or_introl eq_refl)).
    apply chain_reaches with (l := rest); assumption.
  - apply IH with (r := d); [intros x Hx; apply Hac; right; exact Hx | exact Hc].
Qed.

(** While every pending root waits for a pending root, dependency paths
    inside the pending roots can be made as long as one likes. *)
Lemma long_chain (pending : list Root) :
  (forall r, In r pending -> exists d, depends r d /\ In d pending) ->
  forall n r, In r pending ->
              exists l, List.length l = n /\ chain r l /\ incl l pending.
Proof.
  intros Hstep n. induction n as [| n IH]; intros r Hr.
  - exists []. repeat split. intros x Hx. contradiction.
  - destruct (Hstep r Hr) as (d & Hd & Hdin).
    destruct (IH d Hdin) as (l & Hlen & Hc & Hincl).
    exists (d :: l). repeat split; cbn; auto.
    intros x [-> | Hx]; auto.
Qed.

(** Without a cycle, some pending root is ready. *)
Lemma acyclic_pick (placed pending : list Root) (r0 : Root) :
  In r0 pending ->
  (forall r d, In r pending -> depends r d -> In d placed \/ In d pending) ->
  acyclic pending ->
  exists r rest, pick placed pending = Some (r, rest).
Proof.
  intros Hr0 Hclosed Hac.
  destruct (pick placed pending) as [[r rest] |] eqn:Hp; [eauto |].
  exfalso. apply pick_none in Hp. rewrite Forall_forall in Hp.
  assert (Hstep : forall r, In r pending -> exists d, depends r d /\ In d pending).
  { intros r Hr. destruct (not_ready_waits placed r (Hp r Hr)) as (d & Hd & Hn).
    exists d. split; [exact Hd |].
    destruct (Hclosed r d Hr Hd); [contradiction | assumption]. }
  destruct (long_chain pending Hstep (S (List.length pending)) r0 Hr0)
    as (l & Hlen & Hc & Hincl).
  assert (Hnd : NoDup l).
  { apply chain_NoDup with (r := r0); [| exact Hc].
    intros x Hx. apply Hac. apply Hincl. exact Hx. }
  pose proof (NoDup_incl_length Hnd Hincl). lia.
Qed.

Lemma before_In_r (l : list Root) (a b : Root) : before l a b -> In b l.
Proof.
  induction l as [| x rest IH]; cbn; [contradiction |].
  intros [[_ H] | H]; [right; exact H | right; apply IH; exact H].
Qed.

Lemma before_split (a b : list Root) (r r' : Root) :
  NoDup (a ++ r :: b) -> before (a ++ r :: b) r' r -> In r' a.
Proof.
  induction a as [| x a IH]; cbn [app before]; intros Hnd H.
  - exfalso. inversion Hnd as [| ? ? Hnin _]; subst.
    destruct H as [[_ H] | H]; [| apply before_In_r in H]; contradiction.
  - inversion Hnd; subst. destruct H as [[-> _] | H]; [left; reflexivity |].
    right. apply IH; assumption.
Qed.

Lemma before_remove (a b : list Root) (r x y : Root) :
  x <> r -> y <> r -> before (a ++ r :: b) x y -> before (a ++ b) x y.
Proof.
  intros Hx Hy. induction a as [| z a IH]; cbn [app before]; intros H.
  - destruct H as [[-> _] | H]; [contradiction | exact H].
  - destruct H as [[-> H] | H]; [| right; apply IH; exact H].
    left. split; [reflexivity |].
    apply in_app_or in H. apply in_or_app.
    destruct H as [H | [-> | H]]; auto. contradiction.
Qed.

Lemma schedule_sorted (fuel : nat) :
  forall placed pending : list Root,
    (List.length pending <= fuel)%nat ->
    (forall r d, In r pending -> depends r d -> In d placed \/ In d pending) ->
    acyclic pending ->
    exists tail,
      schedule fuel placed pending = inl (placed ++ tail) /\
      Permutation pending tail /\
      (forall l1 r l2, tail = l1 ++ r :: l2 ->
                       forall d, depends r d -> In d (placed ++ l1)) /\
      (NoDup pending ->
       forall l1 r l2 r',
         tail = l1 ++ r :: l2 -> In r' l2 -> before pending r' r ->
         exists d, depends r' d /\ ~ In d (placed ++ l1)).
Proof.
  induction fuel as [| fuel IH]; intros placed pending Hlen Hclosed Hac.
  - destruct pending; [| cbn in Hlen; lia].
    exists []. rewrite app_nil_r. repeat split; auto.
    + intros l1 r l2 E. destruct l1; discriminate.
    + intros _ l1 r l2 r' E. destruct l1; discriminate.
  - destruct pending as [| p0 ps].
    { exists []. rewrite app_nil_r. repeat split; auto.
      - intros l1 r l2 E. destruct l1; discriminate.
      - intros _ l1 r l2 r' E. destruct l1; discriminate. }
    destruct (acyclic_pick placed (p0 :: ps) p0 (or_introl eq_refl) Hclosed Hac)
      as (x & rest & Hp).
    cbn [eval.schedule]. rewrite Hp.
    destruct (pick_spec _ _ _ _ Hp) as (a & b & Epend & -> & Hready & Hwait).
    rewrite Epend in *. clear Epend Hp.
    assert (Hsub : forall y, In y (a ++ b) -> In y (a ++ x :: b)).
    { intros y Hy. apply in_app_or in Hy. apply in_or_app.
      destruct Hy; [left | right; right]; assumption. }
    destruct (IH (placed ++ [x]) (a ++ b)) as (tail & Hs & Hperm & Hdeps & Hstab).
    + rewrite length_app in *. cbn in Hlen. lia.
    + intros r d Hr Hd.
      destruct (Hclosed r d (Hsub r Hr) Hd) as [H | H].
      * left. apply in_or_app. left. exact H.
      * apply in_app_or in H. destruct H as [H | [-> | H]].
        -- right. apply in_or_app. left. exact H.
        -- left. apply in_or_app. right. left. reflexivity.
        -- right. apply in_or_app. right. exact H.
    + intros r Hr. apply Hac. apply Hsub. exact Hr.
    + exists (x :: tail). split; [| split; [| split]].
      * rewrite Hs, <- app_assoc. reflexivity.
      * apply Permutation_sym. apply Permutation_cons_app.
        apply Permutation_sym. exact Hperm.
      * intros l1 r l2 E d Hd. destruct l1 as [| y l1]; cbn in E; inversion E; subst.
        -- rewrite app_nil_r. apply (proj1 (ready_spec placed r) Hready). exact Hd.
        -- specialize (Hdeps l1 r l2 eq_refl d Hd).
           rewrite <- app_assoc in Hdeps. exact Hdeps.
      * intros Hnd l1 r l2 r' E Hr' Hbef.
        destruct l1 as [| y l1]; cbn in E; inversion E; subst.
        -- rewrite app_nil_r. apply before_split in Hbef; [| exact Hnd].
           rewrite Forall_forall in Hwait.
           apply not_ready_waits. apply Hwait. exact Hbef.
        -- assert (Hnx : forall z, In z (l1 ++ r :: l2) -> z <> y).
           { intros z Hz ->. apply NoDup_remove_2 in Hnd. apply Hnd.
             apply Permutation_in with (l := l1 ++ r :: l2);
               [apply Permutation_sym; exact Hperm | exact Hz]. }
           destruct (Hstab (NoDup_remove_1 _ _ _ Hnd) l1 r l2 r' eq_refl Hr')
             as (d & Hd & Hn).
           ++ apply before_remove with (r := y); [| | exact Hbef].
              ** apply Hnx. apply in_or_app. right. right. exact Hr'.
              ** apply Hnx. apply in_or_app. right. left. reflexivity.
           ++ exists d. split; [exact Hd |]. rewrite <- app_assoc in Hn. exact Hn.
Qed.

(** A ready root whose dependencies are all off every cycle is off every
    cycle. *)
Lemma ready_off_cycles (placed : list Root) (r : Root) :
  (forall x, In x placed -> ~ clos_trans Root depends x x) ->
  ready placed r = true ->
  ~ clos_trans Root depends r r.
Proof.
  intros Hoff Hready Hcycle.
  apply clos_trans_t1n in Hcycle.
  inversion Hcycle as [d Hd | d z Hd Hrest]; subst.
  - apply (Hoff r); [apply (proj1 (ready_spec placed r) Hready); exact Hd |].
    apply t_step. exact Hd.
  - apply clos_t1n_trans in Hrest.
    apply (Hoff d); [apply (proj1 (ready_spec placed r) Hready); exact Hd |].
    eapply t_trans; [exact Hrest | apply t_step; exact Hd].
Qed.

Lemma schedule_cycle (fuel : nat) :
  forall (placed pending : list Root) (r : Root),
    (forall x, In x placed -> ~ clos_trans Root depends x x) ->
    In r pending ->
    clos_trans Root depends r r ->
    exists stuck,
      schedule fuel placed pending = inr (cycle_error DSLName stuck) /\ In r stuck.
Proof.
  induction fuel as [| fuel IH]; intros placed pending r Hoff Hr Hcycle.
  - destruct pending; [contradiction |]. cbn. eauto.
  - destruct pending as [| p0 ps]; [contradiction |].
    cbn [eval.schedule].
    destruct (pick placed (p0 :: ps)) as [[x rest] |] eqn:Hp; [| eauto].
    destruct (pick_spec _ _ _ _ Hp) as (a & b & Epend & -> & Hready & _).
    pose proof (ready_off_cycles placed x Hoff Hready) as Hx.
    apply IH; [| | exact Hcycle].
    + intros y Hy. apply in_app_or in Hy. destruct Hy as [Hy | [<- | []]]; auto.
    + rewrite Epend in Hr. apply in_app_or in Hr. apply in_or_app.
      destruct Hr as [Hr | [-> | Hr]]; auto. contradiction.
Qed.

(** ** [RunDSL] *)

Lemma schedule_error (fuel : nat) (placed pending : list Root) (err : error ExprObj) :
  schedule fuel placed pending = inr err ->
  exists stuck, err = cycle_error DSLName stuck.
Proof.
  revert placed pending. induction fuel as [| fuel IH]; intros placed pending H.
  - destruct pending; cbn in H; [discriminate |]. inversion H. eauto.
  - destruct pending as [| r rest]; cbn [eval.schedule] in H; [discriminate |].
    destruct (pick placed (r :: rest)) as [[x rest'] |].
    + eapply IH; eauto.
    + inversion H. eauto.
Qed.

Lemma gate_returns (rest : M (option (engineError ExprObj))) (w w' : World)
      (r : option (engineError ExprObj)) :
  gate rest w = Returns r w' ->
  (exists m, CtxErrors (Context w) = Some m /\ r = Some (multiError m) /\ w' = w) \/
  (CtxErrors (Context w) = None /\ rest w = Returns r w').
Proof.
  unfold gate, Context_Errors. destruct (CtxErrors (Context w)) as [m |]; cbn.
  - intros H. inversion H. left. eauto.
  - intros H. right. auto.
Qed.

Lemma RunDSL_scheduled (w : World) (rs : list Root) :
  SortRoots (Context w) = inl rs -> rs <> [] ->
  RunDSL w =
  bind (executePhase rs)
       (fun capped =>
          match capped with
          | Some err => ret (Some err)
          | None => gate (iterate rs validateSet ;;;
                          gate (iterate rs finalizeSet ;;; ret None))
          end) w.
Proof.
  intros Hs Hne. unfold eval.RunDSL. rewrite Hs.
  destruct rs; [contradiction | reflexivity].
Qed.

Lemma RunDSL_cycle (w : World) (err : error ExprObj) :
  SortRoots (Context w) = inr err -> RunDSL w = Returns (Some (plainError err)) w.
Proof. intros Hs. unfold eval.RunDSL. rewrite Hs. reflexivity. Qed.

(** C5 (amended): when the dependency relation of the registered roots is
    acyclic (the roots they depend on being registered too), scheduling
    yields a permutation of them in which every root comes after all the
    roots it depends on, and in which, each root being registered once, a
    root is overtaken by a root registered after it only while one of its
    own dependencies has no place yet; when a registered root is on a
    dependency cycle, scheduling fails with an error that names it, and
    [RunDSL] returns that error and leaves the state as it found it. *)
Theorem SortRoots_dependencies_first (w : World) :
  (acyclic (roots (Context w)) ->
   closed (roots (Context w)) ->
   exists out,
     SortRoots (Context w) = inl out /\
     Permutation (roots (Context w)) out /\
     dependencies_first out /\
     (NoDup (roots (Context w)) -> overtaken_only_waiting (roots (Context w)) out)) /\
  (forall r,
      In r (roots (Context w)) ->
      clos_trans Root depends r r ->
      exists stuck,
        SortRoots (Context w) = inr (cycle_error DSLName stuck) /\
        In r stuck /\
        RunDSL w = Returns (Some (plainError (cycle_error DSLName stuck))) w).
Proof.
  split.
  - intros Hac Hcl.
    destruct (schedule_sorted (List.length (roots (Context w))) [] (roots (Context w)))
      as (tail & Hs & Hperm & Hdeps & Hstab); auto.
    { intros r d Hr Hd. right. eapply Hcl; eauto. }
    exists tail. repeat split; auto.
  - intros r Hr Hcycle.
    destruct (schedule_cycle (List.length (roots (Context w))) [] (roots (Context w)) r)
      as (stuck & Hs & Hin); auto.
    exists stuck. repeat split; auto.
    apply RunDSL_cycle. exact Hs.
Qed.

(** The values [RunDSL] can return. *)
Lemma RunDSL_results (w w' : World) (r : option (engineError ExprObj)) :
  RunDSL w = Returns r w' ->
  r = None \/
  (exists stuck, r = Some (plainError (cycle_error DSLName stuck))) \/
  (exists m, r = Some (multiError m)).
Proof.
  intros H. destruct (SortRoots (Context w)) as [rs | err] eqn:Hs.
  - destruct rs as [| root rest].
    + unfold eval.RunDSL in H. rewrite Hs in H. inversion H. auto.
    + rewrite (RunDSL_scheduled w (root :: rest) Hs) in H by discriminate.
      unfold bind at 1 in H.
      destruct (executePhase (root :: rest) w) as [capped w1 | p |] eqn:E; try discriminate.
      apply executePhase_returns_nil in E. subst capped.
      apply gate_returns in H. destruct H as [(m & _ & -> & _) | [_ H]]; [eauto |].
      unfold bind at 1 in H.
      destruct (eval.iterate IterateSets (root :: rest) validateSet w1)
        as [u w2 | p |]; try discriminate.
      apply gate_returns in H. destruct H as [(m & _ & -> & _) | [_ H]]; [eauto |].
      unfold bind, ret in H.
      destruct (eval.iterate IterateSets (root :: rest) finalizeSet w2)
        as [u' w3 | p |]; try discriminate.
      inversion H. auto.
  - rewrite (RunDSL_cycle w err Hs) in H. inversion H.
    apply schedule_error in Hs. destruct Hs as [stuck ->]. eauto.
Qed.

Lemma RunDSL_enters_loop (w : World) (rs : list Root) :
  SortRoots (Context w) = inl rs -> rs <> [] -> RunDSL w = RunDSL_from rs 0 0 w.
Proof. intros Hs Hne. rewrite (RunDSL_scheduled w rs Hs Hne). reflexivity. Qed.

Lemma RunDSL_loop_capped (fuel : nat) (rs : list Root) (executed recursed : nat)
      (w w1 : World) :
  (executed < List.length rs)%nat ->
  (100 <= recursed)%nat ->
  iterate (skipn executed rs) runSet w = Returns tt w1 ->
  RunDSL_loop (S fuel) rs executed recursed w = Returns (Some tooManyRoots) w1.
Proof.
  intros Hlt Hcap Hpass. cbn [eval.RunDSL_loop].
  replace (executed <? List.length rs)%nat with true by (symmetry; apply Nat.ltb_lt; exact Hlt).
  unfold bind. rewrite Hpass.
  replace (100 <? S recursed)%nat with true by (symmetry; apply Nat.ltb_lt; lia).
  reflexivity.
Qed.

Lemma runSet_loop_capped (fuel : nat) (set : ExprSet ExprObj) (executed recursed n : nat)
      (w w1 : World) :
  (executed < List.length set)%nat ->
  (100 <= recursed)%nat ->
  runSet_range (skipn executed set) executed w = Returns n w1 ->
  runSet_loop (S fuel) set executed recursed w =
  Returns (Some tooManyExpressions) w1.
Proof.
  intros Hlt Hcap Hpass. cbn [eval.runSet_loop].
  replace (executed <? List.length set)%nat with true by (symmetry; apply Nat.ltb_lt; exact Hlt).
  unfold bind. rewrite Hpass.
  replace (100 <? S recursed)%nat with true by (symmetry; apply Nat.ltb_lt; lia).
  reflexivity.
Qed.


(** C3: when the execute phase ends with [Context.Errors] set, [RunDSL]
    returns exactly that collection and the state the execute phase left,
    whatever [Validate] and [Finalize] would do; when the validate phase
    ends with [Context.Errors] set, [RunDSL] returns that collection and
    the state the validate phase left, whatever [Finalize] would do; and
    [Record] adds its record once, at the end, keeping the earlier ones. *)
Theorem RunDSL_errors_gate_phases
        (w w1 : World) (rs : list Root) (r : option (engineError ExprObj)) :
  SortRoots (Context w) = inl rs ->
  rs <> [] ->
  executePhase rs w = Returns r w1 ->
  (forall m, CtxErrors (Context w1) = Some m ->
             RunDSL w = Returns (Some (multiError m)) w1) /\
  (forall w2 m,
      CtxErrors (Context w1) = None ->
      iterate rs validateSet w1 = Returns tt w2 ->
      CtxErrors (Context w2) = Some m ->
      RunDSL w = Returns (Some (multiError m)) w2) /\
  (forall (err : Error ExprObj) (w0 : World),
      exists w0', Record_ err w0 = Returns tt w0' /\
                  CtxErrors (Context w0') = Some (recorded w0 ++ [err])).
Proof.
  intros Hs Hne He.
  pose proof (executePhase_returns_nil _ _ _ _ He) as ->.
  split; [| split].
  - intros m Hm. rewrite (RunDSL_scheduled w rs Hs Hne).
    unfold bind at 1. rewrite He.
    unfold gate at 1, Context_Errors. rewrite Hm. reflexivity.
  - intros w2 m Hnil Hv Hm. rewrite (RunDSL_scheduled w rs Hs Hne).
    unfold bind at 1. rewrite He.
    unfold gate at 1, Context_Errors. rewrite Hnil. cbn [option_map].
    unfold bind at 1. rewrite Hv.
    unfold gate, Context_Errors. rewrite Hm. reflexivity.
  - intros err w0. eexists. split; [apply Record_appends | reflexivity].
Qed.

(** ** More on [Execute] and [runSet] *)

(** X1: with [Context.Errors] holding a [MultiError] and a callback that
    returns with the stack as [Execute] handed it over, [Execute] returns
    with the caller's stack restored and everything else as the callback
    left it; the result is true exactly when the callback left no more
    errors than it found (also when it removed some). *)
Theorem Execute_reports_new_errors (f : M unit) (def : Expr) (w w2 : World)
        (m m2 : MultiError ExprObj) :
  CtxErrors (Context w) = Some m ->
  f (set_Stack (Stack (Context w) ++ [def]) w) = Returns tt w2 ->
  Stack (Context w2) = Stack (Context w) ++ [def] ->
  CtxErrors (Context w2) = Some m2 ->
  exists b,
    Execute (Some f) def w = Returns b (set_Stack (Stack (Context w)) w2) /\
    (b = true <-> (List.length m2 <= List.length m)%nat) /\
    (b = false <-> (List.length m < List.length m2)%nat).
Proof.
  intros Hm Hf Hs Hm2.
  exists (List.length m2 <=? List.length m)%nat.
  split; [eapply Execute_returns; eauto |].
  split; [apply Nat.leb_le | apply Nat.leb_gt].
Qed.

(** X2: [Execute] with a callback returns exactly when [Context.Errors]
    is a [MultiError] at the call, the callback returns, and it leaves a
    stack that is not empty and a [Context.Errors] that is still a
    [MultiError]; [Execute] then pops whatever expression is on top. *)
Theorem Execute_returns_iff (f : M unit) (def : Expr) (w w' : World) (b : bool) :
  Execute (Some f) def w = Returns b w' <->
  exists m w2 m2 s2 e2,
    CtxErrors (Context w) = Some m /\
    f (set_Stack (Stack (Context w) ++ [def]) w) = Returns tt w2 /\
    Stack (Context w2) = s2 ++ [e2] /\
    CtxErrors (Context w2) = Some m2 /\
    b = (List.length m2 <=? List.length m)%nat /\
    w' = set_Stack s2 w2.
Proof.
  split.
  - unfold Execute, bind, Errors_count, Stack_push, Stack_pop, ret.
    destruct (CtxErrors (Context w)) as [m |] eqn:Hm; [| discriminate].
    destruct (f (set_Stack (Stack (Context w) ++ [def]) w)) as [[] w2 | p |] eqn:Hf;
      try discriminate.
    destruct (Stack (Context w2)) as [| x s] eqn:Hs; [discriminate |].
    destruct (exists_last (l := x :: s) ltac:(discriminate)) as (s2 & e2 & E).
    rewrite E, removelast_last. cbn [Context CtxErrors set_Stack].
    destruct (CtxErrors (Context w2)) as [m2 |] eqn:Hm2; [| discriminate].
    intros H. inversion H. exists m, w2, m2, s2, e2. repeat split; auto; congruence.
  - intros (m & w2 & m2 & s2 & e2 & Hm & Hf & Hs & Hm2 & -> & ->).
    eapply Execute_returns; eauto.
Qed.

Lemma runSet_range_without_DSL (set : ExprSet ExprObj) (w : World) :
  (forall o DSL, In (exprObj o) set -> Source_DSL o = Some DSL -> DSL w = None) ->
  forall executed, exists n, runSet_range set executed w = Returns n w.
Proof.
  induction set as [| def rest IH]; intros Hnil executed.
  - eexists. reflexivity.
  - assert (Hrest : forall o DSL, In (exprObj o) rest -> Source_DSL o = Some DSL ->
                                  DSL w = None).
    { intros o DSL Ho. apply Hnil. right. exact Ho. }
    cbn [eval.runSet_range].
    destruct (asSource Source_DSL def) as [DSL |] eqn:Hsrc; [| apply IH; exact Hrest].
    destruct def as [| s | o]; try discriminate. cbn in Hsrc.
    unfold bind. rewrite (Hnil o DSL (or_introl eq_refl) Hsrc). cbn.
    apply IH. exact Hrest.
Qed.

(** X3: a set none of whose elements holds a DSL (the element is no
    [Source], or its [DSL()] is nil) is passed over by [runSet]: it
    returns nil and leaves the state untouched, also when
    [Context.Errors] is nil. *)
Theorem runSet_without_DSL (set : ExprSet ExprObj) (w : World) :
  (forall o DSL, In (exprObj o) set -> Source_DSL o = Some DSL -> DSL w = None) ->
  runSet set w = Returns None w.
Proof.
  intros Hnil. rewrite runSet_single_pass. unfold eval.runSet_pass, bind.
  destruct (runSet_range_without_DSL set w Hnil 0) as [n ->]. reflexivity.
Qed.

Lemma runSet_range_orderly (set : ExprSet ExprObj) :
  (forall o DSL w f, In (exprObj o) set -> Source_DSL o = Some DSL -> DSL w = Some f ->
                     orderly f) ->
  forall (executed : nat) (w : World) (m : MultiError ExprObj),
    CtxErrors (Context w) = Some m ->
    exists n w' m',
      runSet_range set executed w = Returns n w' /\
      Stack (Context w') = Stack (Context w) /\
      CtxErrors (Context w') = Some m' /\
      (List.length m <= List.length m')%nat.
Proof.
  induction set as [| def rest IH]; intros Hord executed w m Hm.
  - exists executed, w, m. repeat split; auto.
  - assert (Hrest : forall o DSL w f, In (exprObj o) rest -> Source_DSL o = Some DSL ->
                                      DSL w = Some f -> orderly f).
    { intros o DSL w0 f Ho. apply (Hord o DSL w0 f). right. exact Ho. }
    cbn [eval.runSet_range].
    destruct (asSource Source_DSL def) as [DSL |] eqn:Hsrc; [| apply IH; assumption].
    destruct def as [| s | o]; try discriminate. cbn in Hsrc.
    unfold bind at 1.
    destruct (DSL w) as [f |] eqn:Hf.
    + destruct (Hord o DSL w f (or_introl eq_refl) Hsrc Hf
                     (set_Stack (Stack (Context w) ++ [exprObj o]) w) m Hm)
        as (w2 & m2 & Hrun & Hs & Hm2 & Hle).
      cbn [set_Stack Context Stack] in Hs.
      rewrite (Execute_returns f (exprObj o) w w2 m m2 (Stack (Context w)) (exprObj o)
                 Hm Hrun Hs Hm2).
      destruct (IH Hrest (S executed) (set_Stack (Stack (Context w)) w2) m2 Hm2)
        as (n & w' & m' & Hr & Hs' & Hm' & Hle').
      exists n, w', m'. repeat split; auto. lia.
    + cbn. apply IH; assumption.
Qed.

(** X4: when the initializers of a set are orderly and [Context.Errors]
    is a [MultiError], [runSet] returns nil with the stack as it was and
    with no fewer records in [Context.Errors] than before: every push is
    matched by its pop and errors only accumulate. *)
Theorem runSet_keeps_stack (set : ExprSet ExprObj) (w : World) (m : MultiError ExprObj) :
  (forall o DSL w f, In (exprObj o) set -> Source_DSL o = Some DSL -> DSL w = Some f ->
                     orderly f) ->
  CtxErrors (Context w) = Some m ->
  exists w' m',
    runSet set w = Returns None w' /\
    Stack (Context w') = Stack (Context w) /\
    CtxErrors (Context w') = Some m' /\
    (List.length m <= List.length m')%nat.
Proof.
  intros Hord Hm. rewrite runSet_single_pass. unfold eval.runSet_pass, bind.
  destruct (runSet_range_orderly set Hord 0 w m Hm) as (n & w' & m' & -> & Hs & Hm' & Hle).
  exists w', m'. repeat split; auto.
Qed.

Lemma ReportError_orderly (loc : string * nat) (fm : string) (vals : list Value) :
  orderly (ReportError loc fm vals : M unit).
Proof.
  intros w m Hm. eexists. eexists.
  split; [apply ReportError_unfold |].
  split; [reflexivity |].
  split; [reflexivity |].
  unfold recorded. rewrite Hm, length_app. lia.
Qed.

Lemma orderly_bind (f g : M unit) : orderly f -> orderly g -> orderly (f ;;; g).
Proof.
  intros Hf Hg w m Hm.
  destruct (Hf w m Hm) as (w1 & m1 & Hr1 & Hs1 & Hm1 & Hle1).
  destruct (Hg w1 m1 Hm1) as (w2 & m2 & Hr2 & Hs2 & Hm2 & Hle2).
  exists w2, m2. unfold bind. rewrite Hr1.
  repeat split; auto; [congruence | lia].
Qed.

(** ** More on [RunDSL] *)

(** X5: with no root to run, [RunDSL] returns nil and leaves the state
    untouched; errors recorded before the run are not returned. *)
Theorem RunDSL_without_roots (w : World) :
  SortRoots (Context w) = inl [] -> RunDSL w = Returns None w.
Proof. intros Hs. unfold eval.RunDSL. rewrite Hs. reflexivity. Qed.

(** X6: with roots to run, [RunDSL] returns nil exactly when the three
    phases ran to their end, each over all the roots, and
    [Context.Errors] was nil after the execute phase and after the
    validate phase.  What [Context.Errors] is after the finalize phase
    plays no part: an error recorded by a finalizer is not returned. *)
Theorem RunDSL_returns_nil_iff (w w3 : World) (rs : list Root) :
  SortRoots (Context w) = inl rs ->
  rs <> [] ->
  (RunDSL w = Returns None w3 <->
   exists w1 w2,
     iterate rs runSet w = Returns tt w1 /\
     CtxErrors (Context w1) = None /\
     iterate rs validateSet w1 = Returns tt w2 /\
     CtxErrors (Context w2) = None /\
     iterate rs finalizeSet w2 = Returns tt w3).
Proof.
  intros Hs Hne. rewrite (RunDSL_scheduled w rs Hs Hne).
  unfold bind at 1. rewrite executePhase_single_pass.
  unfold eval.executePass, bind at 1, ret.
  split.
  - destruct (eval.iterate IterateSets rs runSet w) as [[] w1 | p |] eqn:E1;
      try discriminate.
    unfold gate at 1, Context_Errors.
    destruct (CtxErrors (Context w1)) as [m1 |] eqn:Hm1; [discriminate |].
    cbn [option_map]. unfold bind at 1.
    destruct (eval.iterate IterateSets rs validateSet w1) as [[] w2 | p |] eqn:E2;
      try discriminate.
    unfold gate, Context_Errors.
    destruct (CtxErrors (Context w2)) as [m2 |] eqn:Hm2; [discriminate |].
    cbn [option_map]. unfold bind.
    destruct (eval.iterate IterateSets rs finalizeSet w2) as [[] w3' | p |] eqn:E3;
      try discriminate.
    intros H. inversion H; subst. exists w1, w2. auto.
  - intros (w1 & w2 & E1 & Hm1 & E2 & Hm2 & E3).
    rewrite E1. unfold gate at 1, Context_Errors. rewrite Hm1. cbn [option_map].
    unfold bind at 1. rewrite E2.
    unfold gate, Context_Errors. rewrite Hm2. cbn [option_map].
    unfold bind. rewrite E3. reflexivity.
Qed.

(** ** More on [validateSet] *)

Lemma validateSet_range_invariant (P : ValidationErrors ExprObj -> Prop)
      (Q : option (error ExprObj) -> Prop) (set : ExprSet ExprObj) :
  (forall verr def err, P verr -> Q err -> P (AddError verr def err)) ->
  (forall def V w0 err w1, In def set -> asValidator def = Some V ->
                           V w0 = Returns err w1 -> Q err) ->
  forall (errors errors' : ValidationErrors ExprObj) (w w' : World),
    validateSet_range set errors w = Returns errors' w' ->
    P errors -> P errors'.
Proof.
  intros Hadd. induction set as [| def rest IH]; intros HQ errors errors' w w' H HP.
  - inversion H; subst. exact HP.
  - assert (Hrest : forall def V w0 err w1, In def rest -> asValidator def = Some V ->
                                            V w0 = Returns err w1 -> Q err).
    { intros d V w0 err w1 Hd. apply (HQ d V w0 err w1). right. exact Hd. }
    cbn [eval.validateSet_range] in H.
    destruct (asValidator def) as [V |] eqn:HV; [| eapply IH; eauto].
    unfold bind in H. destruct (V w) as [err w1 | p |] eqn:Hrun; try discriminate.
    pose proof (HQ def V w err w1 (or_introl eq_refl) HV Hrun) as Herr.
    destruct err as [e |]; eapply IH; eauto.
Qed.

(** X7: the batch [validateSet] collects for a set keeps the invariants
    of batches: when every validator of the set returns nil, a plain
    error or a batch with as many owners as errors, the set's batch has as
    many owners as errors; when the batches they return are flat, the
    set's batch is flat. *)
Theorem validateSet_batch_invariants (set : ExprSet ExprObj)
        (errors : ValidationErrors ExprObj) (w w' : World) :
  validateSet_range set (mkValidationErrors [] []) w = Returns errors w' ->
  ((forall def V w0 err w1, In def set -> asValidator def = Some V ->
                            V w0 = Returns err w1 -> paired_error err) ->
   paired errors) /\
  ((forall def V w0 err w1, In def set -> asValidator def = Some V ->
                            V w0 = Returns err w1 -> flat_error err) ->
   flat errors).
Proof.
  intros H. split; intros HQ.
  - eapply (validateSet_range_invariant paired paired_error); eauto.
    + intros. apply paired_AddError; assumption.
    + reflexivity.
  - eapply (validateSet_range_invariant flat flat_error); eauto.
    + intros. apply flat_AddError; assumption.
    + constructor.
Qed.

Lemma validateSet_range_frame (set : ExprSet ExprObj) :
  (forall def V w0 err w1, In def set -> asValidator def = Some V ->
                           V w0 = Returns err w1 -> Context w1 = Context w0) ->
  forall (errors errors' : ValidationErrors ExprObj) (w w' : World),
    validateSet_range set errors w = Returns errors' w' ->
    Context w' = Context w.
Proof.
  induction set as [| def rest IH]; intros Hframe errors errors' w w' H.
  - inversion H; subst. reflexivity.
  - assert (Hrest : forall def V w0 err w1, In def rest -> asValidator def = Some V ->
                                            V w0 = Returns err w1 -> Context w1 = Context w0).
    { intros d V w0 err w1 Hd. apply (Hframe d V w0 err w1). right. exact Hd. }
    cbn [eval.validateSet_range] in H.
    destruct (asValidator def) as [V |] eqn:HV; [| eapply IH; eauto].
    unfold bind in H. destruct (V w) as [err w1 | p |] eqn:Hrun; try discriminate.
    pose proof (Hframe def V w err w1 (or_introl eq_refl) HV Hrun) as Hctx.
    destruct err as [e |]; apply IH in H; auto; congruence.
Qed.

(** X8: when the validators of a set leave the context alone,
    [validateSet] adds at most one record to [Context.Errors], at its
    end: none when the set's batch is empty, else one record without file
    and line that wraps the batch.  It returns the whole [Context.Errors]:
    a set without failures still returns the errors of the sets before
    it. *)
Theorem validateSet_records_once (set : ExprSet ExprObj) (w w' : World)
        (r : option (engineError ExprObj)) :
  (forall def V w0 err w1, In def set -> asValidator def = Some V ->
                           V w0 = Returns err w1 -> Context w1 = Context w0) ->
  validateSet set w = Returns r w' ->
  exists errors w1,
    validateSet_range set (mkValidationErrors [] []) w = Returns errors w1 /\
    Context w1 = Context w /\
    r = Context_Errors w' /\
    (Errors errors = [] -> w' = w1) /\
    (Errors errors <> [] ->
     w' = set_Errors
            (Some (recorded w ++ [mkError (Some (batch_error errors)) EmptyString 0])) w1).
Proof.
  intros Hframe H. unfold eval.validateSet, bind in H.
  destruct (validateSet_range set (mkValidationErrors [] []) w) as [errors w1 | p |] eqn:E;
    try discriminate.
  pose proof (validateSet_range_frame set Hframe _ _ _ _ E) as Hctx.
  exists errors, w1. split; [reflexivity |]. split; [exact Hctx |].
  destruct (0 <? List.length (Errors errors))%nat eqn:Hlen.
  - rewrite Record_appends in H. inversion H; subst.
    split; [reflexivity |].
    split.
    + intros E0. apply Nat.ltb_lt in Hlen. rewrite E0 in Hlen. cbn in Hlen. lia.
    + intros _. unfold recorded. rewrite Hctx. reflexivity.
  - unfold ret in H. inversion H; subst.
    split; [reflexivity |].
    split; [reflexivity |].
    intros Hne. apply Nat.ltb_ge in Hlen.
    destruct (Errors errors); [contradiction | cbn in Hlen; lia].
Qed.

(** ** More on [ValidationErrors] *)

Lemma EvalName_None (x : Expr) (h : Heap) :
  EvalName EvalName_obj x h = None <-> x = nilExpr.
Proof. destruct x; cbn; split; intros H; congruence. Qed.

Lemma Error_lines_returns (text : error ExprObj -> option string) (h : Heap)
      (exprs : list Expr) (errs : list (option (error ExprObj))) :
  forall i,
    Error_lines text h exprs errs i <> None <->
    (forall j, (j < List.length errs)%nat ->
               exists x, nth_error exprs (i + j) = Some x /\ x <> nilExpr).
Proof.
  induction errs as [| err rest IH]; intros i.
  - split.
    + intros _ j Hj. cbn in Hj. lia.
    + intros _. discriminate.
  - cbn [eval.Error_lines List.length]. split.
    + intros H j Hj.
      destruct (nth_error exprs i) as [x |] eqn:Hx; [| contradiction].
      destruct (EvalName EvalName_obj x h) as [name |] eqn:Hn; [| contradiction].
      destruct (Error_lines text h exprs rest (S i)) as [ls' |] eqn:Hr; [| contradiction].
      destruct j as [| j].
      * rewrite Nat.add_0_r. exists x. split; [exact Hx |].
        intros ->. discriminate Hn.
      * replace (i + S j)%nat with (S i + j)%nat by lia.
        apply (proj1 (IH (S i))); [| lia].
        rewrite Hr. discriminate.
    + intros H.
      destruct (H 0%nat ltac:(lia)) as (x & Hx & Hne).
      rewrite Nat.add_0_r in Hx. rewrite Hx.
      destruct (EvalName EvalName_obj x h) as [name |] eqn:Hn;
        [| apply EvalName_None in Hn; contradiction].
      assert (Hr : Error_lines text h exprs rest (S i) <> None).
      { apply IH. intros j Hj.
        replace (S i + j)%nat with (i + S j)%nat by lia. apply H. lia. }
      destruct (Error_lines text h exprs rest (S i)); [discriminate | contradiction].
Qed.

(** X9: rendering a batch returns (does not panic) exactly when every
    error has an owner at its index and that owner is not nil, whatever
    the errors are; so it panics as soon as there are more errors than
    owners. *)
Theorem ValidationErrors_Error_returns_iff (h : Heap) (verr : ValidationErrors ExprObj) :
  ((exists s, ValidationErrors_Error h verr = Some s) <->
   (forall i, (i < List.length (Errors verr))%nat ->
              exists x, nth_error (Exprs verr) i = Some x /\ x <> nilExpr)) /\
  ((List.length (Exprs verr) < List.length (Errors verr))%nat ->
   ValidationErrors_Error h verr = None).
Proof.
  assert (Hiff : (exists s, ValidationErrors_Error h verr = Some s) <->
                 (forall i, (i < List.length (Errors verr))%nat ->
                            exists x, nth_error (Exprs verr) i = Some x /\ x <> nilExpr)).
  { rewrite <- (Error_lines_returns (error_Error h) h (Exprs verr) (Errors verr) 0).
    unfold eval.ValidationErrors_Error, batch_error. cbn [eval.error_Error].
    destruct (Error_lines (error_Error h) h (Exprs verr) (Errors verr) 0) as [ls |].
    - split; [discriminate | intros _; eexists; reflexivity].
    - split; [intros [s H]; discriminate H | intros H; contradiction]. }
  split; [exact Hiff |].
  intros Hlt.
  destruct (ValidationErrors_Error h verr) as [s |] eqn:E; [| reflexivity].
  exfalso.
  destruct (proj1 Hiff (ex_intro _ s eq_refl) (List.length (Exprs verr)) Hlt)
    as (x & Hx & _).
  assert (nth_error (Exprs verr) (List.length (Exprs verr)) = None)
    by (apply nth_error_None; lia).
  congruence.
Qed.

Lemma string_app_assoc (a b c : string) : ((a ++ b) ++ c = a ++ b ++ c)%string.
Proof. induction a as [| x a IH]; cbn; [reflexivity | rewrite IH; reflexivity]. Qed.

Lemma Join_cons (s : string) (rest : list string) (sep : string) :
  rest <> [] -> Join (s :: rest) sep = (s ++ sep ++ Join rest sep)%string.
Proof. destruct rest; [contradiction | reflexivity]. Qed.

Lemma Join_app (l1 l2 : list string) (sep : string) :
  l1 <> [] -> l2 <> [] ->
  Join (l1 ++ l2) sep = (Join l1 sep ++ sep ++ Join l2 sep)%string.
Proof.
  intros H1 H2. induction l1 as [| s rest IH]; [contradiction |].
  destruct rest as [| s' rest].
  - cbn [app]. rewrite Join_cons by exact H2. reflexivity.
  - cbn [app]. rewrite Join_cons by discriminate.
    change ((s' :: rest) ++ l2) with (s' :: rest ++ l2) in IH.
    rewrite IH by discriminate.
    rewrite (Join_cons s (s' :: rest)) by discriminate.
    rewrite !string_app_assoc. reflexivity.
Qed.

Lemma Error_lines_length (text : error ExprObj -> option string) (h : Heap)
      (exprs : list Expr) (errs : list (option (error ExprObj))) :
  forall i ls, Error_lines text h exprs errs i = Some ls ->
               List.length ls = List.length errs.
Proof.
  induction errs as [| err rest IH]; intros i ls H; cbn [eval.Error_lines] in H.
  - inversion H. reflexivity.
  - destruct (nth_error exprs i) as [x |]; [| discriminate].
    destruct (EvalName EvalName_obj x h) as [name |]; [| discriminate].
    destruct (Error_lines text h exprs rest (S i)) as [ls' |] eqn:Hr; [| discriminate].
    inversion H. cbn. rewrite (IH _ _ Hr). reflexivity.
Qed.

(** The lines of a batch do not depend on owners past its last error. *)
Lemma Error_lines_owners_app (text : error ExprObj -> option string) (h : Heap)
      (exprs more : list Expr) (errs : list (option (error ExprObj))) :
  forall i ls, Error_lines text h exprs errs i = Some ls ->
               Error_lines text h (exprs ++ more) errs i = Some ls.
Proof.
  induction errs as [| err rest IH]; intros i ls H; cbn [eval.Error_lines] in H |- *.
  - exact H.
  - destruct (nth_error exprs i) as [x |] eqn:Hx; [| discriminate].
    rewrite nth_error_app1 by (apply nth_error_Some; congruence). rewrite Hx.
    destruct (EvalName EvalName_obj x h) as [name |]; [| discriminate].
    destruct (Error_lines text h exprs rest (S i)) as [ls' |] eqn:Hr; [| discriminate].
    rewrite (IH _ _ Hr). exact H.
Qed.

Lemma Error_lines_shift (text : error ExprObj -> option string) (h : Heap)
      (pre exprs : list Expr) (errs : list (option (error ExprObj))) :
  forall i, Error_lines text h (pre ++ exprs) errs (List.length pre + i) =
            Error_lines text h exprs errs i.
Proof.
  induction errs as [| err rest IH]; intros i; cbn [eval.Error_lines].
  - reflexivity.
  - rewrite nth_error_app2 by lia.
    replace (List.length pre + i - List.length pre)%nat with i by lia.
    replace (S (List.length pre + i)) with (List.length pre + S i)%nat by lia.
    rewrite IH. reflexivity.
Qed.

Lemma Error_lines_app (text : error ExprObj -> option string) (h : Heap)
      (exprs : list Expr) (e1 e2 : list (option (error ExprObj))) :
  forall i l1 l2,
    Error_lines text h exprs e1 i = Some l1 ->
    Error_lines text h exprs e2 (i + List.length e1) = Some l2 ->
    Error_lines text h exprs (e1 ++ e2) i = Some (l1 ++ l2).
Proof.
  induction e1 as [| err rest IH]; intros i l1 l2 H1 H2; cbn [eval.Error_lines app] in *.
  - inversion H1. rewrite Nat.add_0_r in H2. exact H2.
  - destruct (nth_error exprs i) as [x |]; [| discriminate].
    destruct (EvalName EvalName_obj x h) as [name |]; [| discriminate].
    destruct (Error_lines text h exprs rest (S i)) as [ls' |] eqn:Hr; [| discriminate].
    inversion H1; subst.
    rewrite (IH (S i) ls' l2 Hr).
    + reflexivity.
    + replace (S i + List.length rest)%nat with (i + S (List.length rest))%nat by lia.
      exact H2.
Qed.

(** X10: rendering goes through [Merge]: when the receiving batch has
    as many owners as errors and both batches render, the merged batch
    renders as the two texts joined by a newline (as the one text, when
    the other batch is empty). *)
Theorem ValidationErrors_Error_Merge (h : Heap) (a b : ValidationErrors ExprObj)
        (sa sb : string) :
  paired a ->
  ValidationErrors_Error h a = Some sa ->
  ValidationErrors_Error h b = Some sb ->
  ValidationErrors_Error h (Merge a (Some b)) =
  Some (match Errors a, Errors b with
        | [], _ => sb
        | _, [] => sa
        | _, _ => sa ++ NL ++ sb
        end)%string.
Proof.
  unfold paired, eval.ValidationErrors_Error, batch_error, Merge.
  cbn [eval.error_Error Errors Exprs]. intros Hp Ha Hb.
  destruct (Error_lines (error_Error h) h (Exprs a) (Errors a) 0) as [la |] eqn:Ea;
    [| discriminate].
  destruct (Error_lines (error_Error h) h (Exprs b) (Errors b) 0) as [lb |] eqn:Eb;
    [| discriminate].
  cbn in Ha, Hb. inversion Ha; inversion Hb; subst.
  pose proof (Error_lines_length _ _ _ _ _ _ Ea) as Hla.
  pose proof (Error_lines_length _ _ _ _ _ _ Eb) as Hlb.
  rewrite (Error_lines_app (error_Error h) h (Exprs a ++ Exprs b) (Errors a) (Errors b)
             0 la lb).
  - cbn [option_map]. f_equal.
    destruct (Errors a) as [| ea resta]; destruct la; try discriminate.
    + reflexivity.
    + destruct (Errors b) as [| eb restb]; destruct lb; try discriminate.
      * rewrite app_nil_r. reflexivity.
      * apply Join_app; discriminate.
  - apply Error_lines_owners_app. exact Ea.
  - cbn [Nat.add]. rewrite Hp.
    rewrite <- (Nat.add_0_r (List.length (Exprs a))).
    rewrite Error_lines_shift. exact Eb.
Qed.

(** X11: [Merge] of nil changes nothing; merging is associative; the
    empty batch is neutral on both sides; and [AddError] of a batch is
    [Merge] of that batch, whatever expression is passed along. *)
Theorem Merge_monoid (a b c : ValidationErrors ExprObj) (def : Expr) :
  Merge a None = a /\
  Merge (Merge a (Some b)) (Some c) = Merge a (Some (Merge b (Some c))) /\
  Merge (mkValidationErrors [] []) (Some a) = a /\
  Merge a (Some (mkValidationErrors [] [])) = a /\
  AddError a def (Some (batch_error b)) = Merge a (Some b).
Proof.
  destruct a as [ea xa], b as [eb xb], c as [ec xc].
  unfold Merge, AddError, batch_error. cbn [Errors Exprs].
  rewrite !app_assoc, !app_nil_r. repeat split; reflexivity.
Qed.

(** ** [IncompatibleDSL] *)

Lemma Split_not_empty (s : string) (sep : ascii) : Split s sep <> [].
Proof.
  destruct s as [| c rest]; cbn; [discriminate |].
  destruct (Ascii.eqb c sep); [discriminate |].
  destruct (Split rest sep); discriminate.
Qed.

Lemma Join_Split (s : string) (sep : ascii) :
  Join (Split s sep) (String sep EmptyString) = s.
Proof.
  induction s as [| c rest IH]; [reflexivity |].
  cbn [Split]. destruct (Ascii.eqb_spec c sep) as [-> | Hne].
  - rewrite Join_cons by apply Split_not_empty. rewrite IH. reflexivity.
  - destruct (Split rest sep) as [| first others] eqn:E.
    + exfalso. exact (Split_not_empty rest sep E).
    + destruct others as [| second others].
      * cbn in IH |- *. rewrite IH. reflexivity.
      * rewrite Join_cons by discriminate.
        rewrite Join_cons in IH by discriminate.
        rewrite <- IH. reflexivity.
Qed.

Lemma Split_no_separator (s : string) (sep : ascii) :
  Forall (fun part => has_byte sep part = false) (Split s sep).
Proof.
  induction s as [| c rest IH]; cbn [Split].
  - repeat constructor.
  - destruct (Ascii.eqb c sep) eqn:Hc.
    + constructor; [reflexivity | exact IH].
    + destruct (Split rest sep) as [| first others].
      * repeat constructor. cbn. rewrite Hc. reflexivity.
      * inversion IH; subst. constructor; [| assumption].
        cbn. rewrite Hc. assumption.
Qed.

(** X17: [IncompatibleDSL] reports one error, "invalid use of %s" with
    one operand: the part of the caller's name after its last dot, the
    whole name when it has no dot.  The index it reads is in range for
    every name, the name is its dotted parts joined again, and the stack,
    the roots and the object graph are left as they were. *)
Theorem IncompatibleDSL_reports_unqualified_name
        (Value_of_string : string -> Value) (name : string) (loc : string * nat) (w : World) :
  exists (qualifier : list string) (function : string),
    Split name "."%char = qualifier ++ [function] /\
    has_byte "."%char function = false /\
    name = Join (qualifier ++ [function]) "." /\
    IncompatibleDSL EvalName_obj fmt_verbs Value_of_string name loc w =
    ReportError loc "invalid use of %s" [Value_of_string function] w /\
    exists w',
      IncompatibleDSL EvalName_obj fmt_verbs Value_of_string name loc w = Returns tt w' /\
      Stack (Context w') = Stack (Context w) /\
      roots (Context w') = roots (Context w) /\
      heap w' = heap w /\
      List.length (recorded w') = S (List.length (recorded w)).
Proof.
  destruct (exists_last (Split_not_empty name "."%char)) as (qualifier & function & E).
  exists qualifier, function.
  split; [exact E |].
  split.
  { pose proof (Split_no_separator name "."%char) as H. rewrite E in H.
    apply Forall_app in H. destruct H as [_ H]. inversion H; assumption. }
  split; [rewrite <- E; symmetry; apply Join_Split |].
  assert (Hcall : IncompatibleDSL EvalName_obj fmt_verbs Value_of_string name loc w =
                  ReportError loc "invalid use of %s" [Value_of_string function] w).
  { unfold IncompatibleDSL. rewrite E, last_last. reflexivity. }
  split; [exact Hcall |].
  rewrite Hcall, ReportError_unfold. eexists. split; [reflexivity |].
  repeat split. unfold recorded at 1. cbn. rewrite length_app. cbn. lia.
Qed.

Lemma Split_app (a b : string) (sep : ascii) :
  Split (a ++ String sep b) sep = (Split a sep ++ Split b sep)%list.
Proof.
  induction a as [| c a IH]; cbn [String.append Split].
  - rewrite Ascii.eqb_refl. reflexivity.
  - destruct (Ascii.eqb c sep); [rewrite IH; reflexivity |].
    rewrite IH. destruct (Split a sep) as [| first others] eqn:E.
    + exfalso. exact (Split_not_empty a sep E).
    + reflexivity.
Qed.

Lemma Split_whole (s : string) (sep : ascii) :
  has_byte sep s = false -> Split s sep = [s].
Proof.
  induction s as [| c s IH]; cbn [has_byte Split]; [reflexivity |].
  destruct (Ascii.eqb c sep); [discriminate |].
  intros H. rewrite (IH H). reflexivity.
Qed.

(** The caller's name as [caller()] returns it for a function of a
    package: whatever dots the package path has, the operand is the
    function. *)
Lemma IncompatibleDSL_function
      (Value_of_string : string -> Value) (pkg function : string)
      (loc : string * nat) (w : World) :
  has_byte "."%char function = false ->
  IncompatibleDSL EvalName_obj fmt_verbs Value_of_string (pkg ++ "." ++ function)%string loc w =
  ReportError loc "invalid use of %s" [Value_of_string function] w.
Proof.
  intros H. unfold IncompatibleDSL. cbn [String.append].
  rewrite Split_app, (Split_whole function "."%char H), last_last. reflexivity.
Qed.

(** ** Sets handed over in pieces *)

Lemma runSet_range_start (defs : list Expr) :
  forall (executed : nat) (w : World),
    runSet_range defs executed w =
    match runSet_range defs 0 w with
    | Returns n w' => Returns (executed + n)%nat w'
    | Panics p => Panics p
    | Timeout => Timeout
    end.
Proof.
  induction defs as [| def rest IH]; intros executed w.
  - cbn. unfold ret. rewrite Nat.add_0_r. reflexivity.
  - cbn [eval.runSet_range].
    destruct (asSource Source_DSL def) as [DSL |].
    + unfold bind. destruct (Execute (DSL w) def w) as [b w1 | p |]; try reflexivity.
      rewrite (IH (S executed) w1), (IH 1%nat w1).
      destruct (eval.runSet_range Source_DSL rest 0 w1) as [n w2 | p |]; try reflexivity.
      f_equal. lia.
    + rewrite (IH (S executed) w), (IH 1%nat w).
      destruct (eval.runSet_range Source_DSL rest 0 w) as [n w2 | p |]; try reflexivity.
      f_equal. lia.
Qed.

Lemma runSet_range_pieces (a b : list Expr) :
  forall (executed : nat) (w : World),
    runSet_range (a ++ b) executed w =
    (n <- runSet_range a executed ;; runSet_range b n) w.
Proof.
  induction a as [| def rest IH]; intros executed w.
  - reflexivity.
  - cbn [app eval.runSet_range].
    destruct (asSource Source_DSL def) as [DSL |].
    + unfold bind. destruct (Execute (DSL w) def w) as [x w1 | p |]; try reflexivity.
      rewrite IH. reflexivity.
    + apply IH.
Qed.

Lemma finalizeSet_range_pieces (a b : list Expr) (w : World) :
  eval.finalizeSet_range Finalizer_Finalize (a ++ b) w =
  (eval.finalizeSet_range Finalizer_Finalize a ;;;
   eval.finalizeSet_range Finalizer_Finalize b) w.
Proof.
  revert w. induction a as [| def rest IH]; intros w.
  - reflexivity.
  - cbn [app eval.finalizeSet_range].
    destruct (asFinalizer Finalizer_Finalize def) as [Finalize |].
    + unfold bind. destruct (Finalize w) as [x w1 | p |]; try reflexivity.
      rewrite IH. reflexivity.
    + apply IH.
Qed.

(** X22: a root may hand its expressions to the engine as one set or as
    consecutive pieces of it: [runSet] on a concatenation does what
    [runSet] on the first piece followed by [runSet] on the second does,
    with the same result, state, panic or not; and so does
    [finalizeSet]. *)
Theorem sets_in_pieces (a b : ExprSet ExprObj) (w : World) :
  runSet (a ++ b) w = (runSet a ;;; runSet b) w /\
  finalizeSet (a ++ b) w = (finalizeSet a ;;; finalizeSet b) w.
Proof.
  split.
  - rewrite runSet_single_pass. unfold bind at 1.
    rewrite runSet_single_pass. unfold eval.runSet_pass.
    unfold bind at 1. rewrite runSet_range_pieces. unfold bind at 1 2.
    destruct (eval.runSet_range Source_DSL a 0 w) as [n w1 | p |]; try reflexivity.
    unfold ret at 2. rewrite runSet_single_pass. unfold eval.runSet_pass.
    rewrite (runSet_range_start b n w1). unfold bind.
    destruct (eval.runSet_range Source_DSL b 0 w1) as [k w2 | p |]; reflexivity.
  - unfold eval.finalizeSet. unfold bind at 1. rewrite finalizeSet_range_pieces.
    unfold bind.
    destruct (eval.finalizeSet_range Finalizer_Finalize a w) as [x w1 | p |]; reflexivity.
Qed.

End EngineFacts.

(** * Properties of the DSL functions *)

Section DSLFacts.

Context {ExprObj RootObj Heap Value DataType : Type}.
Variable EvalName_obj : ExprObj -> Heap -> string.
Variable fmt_verbs : string -> list Value -> string.
Variable Value_of_string : string -> Value.
Variable typeOf : ExprObj -> dsl.exprType.
Variable store_Reference : ExprObj -> DataType -> Heap -> Heap.
Variable store_TypeName : ExprObj -> string -> Heap -> Heap.
Variable store_MediaType : ExprObj -> string -> Heap -> Heap.
Variable store_ViewName : ExprObj -> string -> Heap -> Heap.
Variable Identifier : ExprObj -> Heap -> string.
Variable pkg : string.

Local Abbreviation World := (World ExprObj RootObj Heap).
Local Abbreviation M := (M ExprObj RootObj Heap).
Local Abbreviation Expr := (Expr ExprObj).
Local Abbreviation ReportError := (ReportError EvalName_obj fmt_verbs).
Local Abbreviation ReportError_suffix := (ReportError_suffix EvalName_obj).
Local Abbreviation misuse := (dsl.misuse EvalName_obj fmt_verbs Value_of_string pkg).
Local Abbreviation misuse_record := (dsl.misuse_record (ExprObj := ExprObj) fmt_verbs Value_of_string).
Local Abbreviation Reference :=
  (dsl.Reference EvalName_obj fmt_verbs Value_of_string typeOf store_Reference pkg).
Local Abbreviation TypeName :=
  (dsl.TypeName EvalName_obj fmt_verbs Value_of_string typeOf store_TypeName pkg).
Local Abbreviation Media :=
  (dsl.Media EvalName_obj fmt_verbs Value_of_string typeOf store_MediaType store_ViewName
             Identifier pkg).
Local Abbreviation currentType := (dsl.currentType (RootObj := RootObj) (Heap := Heap) typeOf).

Lemma misuse_reports (function : string) (loc : string * nat) (w : World) :
  has_byte "."%char function = false ->
  misuse function loc w =
  Returns tt (set_Errors (Some (recorded w ++ [misuse_record function loc (ReportError_suffix w)]))
                         w).
Proof.
  intros H. unfold dsl.misuse.
  rewrite (IncompatibleDSL_function EvalName_obj fmt_verbs Value_of_string pkg function loc w H).
  apply ReportError_unfold.
Qed.

Lemma currentType_top_level (w : World) : Stack (Context w) = [] -> currentType w = None.
Proof. intros H. unfold dsl.currentType. rewrite (Current_empty w H). reflexivity. Qed.

Lemma currentType_pushed (w : World) (s : list Expr) (def : ExprObj) :
  Stack (Context w) = s ++ [exprObj def] -> currentType w = Some (def, typeOf def).
Proof.
  intros H. unfold dsl.currentType.
  rewrite (Current_snoc w s (exprObj def)); [reflexivity | discriminate | exact H].
Qed.

Lemma suffix_pushed (w : World) (s : list Expr) (def : ExprObj) :
  Stack (Context w) = s ++ [exprObj def] ->
  ReportError_suffix w =
  if String.eqb (EvalName_obj def (heap w)) EmptyString then EmptyString
  else (" in " ++ EvalName_obj def (heap w))%string.
Proof. intros H. apply (ReportError_suffix_in EvalName_obj w s (exprObj def)); auto. Qed.

(** A function that, run on an expression, either stores into it or
    reports its misuse. *)
Lemma Execute_store_or_misuse (f : M unit) (function : string) (accepts : bool)
      (g : Heap -> Heap) (loc : string * nat) (def : ExprObj)
      (w : World) (m : MultiError ExprObj) :
  CtxErrors (Context w) = Some m ->
  has_byte "."%char function = false ->
  (forall w1, Stack (Context w1) = Stack (Context w) ++ [exprObj def] ->
              f w1 = if accepts then dsl.store g w1 else misuse function loc w1) ->
  Execute (Some f) (exprObj def) w =
  if accepts then Returns true (mkWorld (Context w) (g (heap w)))
  else Returns false
         (set_Errors
            (Some (m ++ [misuse_record function loc
                           (if String.eqb (EvalName_obj def (heap w)) EmptyString
                            then EmptyString
                            else (" in " ++ EvalName_obj def (heap w))%string)]))
            w).
Proof.
  intros Hm Hdot Hf.
  set (w1 := set_Stack (Stack (Context w) ++ [exprObj def]) w).
  assert (Hs1 : Stack (Context w1) = Stack (Context w) ++ [exprObj def]) by reflexivity.
  pose proof (Hf w1 Hs1) as Hrun. destruct accepts.
  - unfold dsl.store in Hrun.
    rewrite (Execute_returns f (exprObj def) w _ m m
               (Stack (Context w)) (exprObj def) Hm Hrun eq_refl Hm).
    rewrite Nat.leb_refl. destruct w as [[s e r] h]. reflexivity.
  - rewrite misuse_reports in Hrun by exact Hdot.
    rewrite (suffix_pushed w1 _ def Hs1) in Hrun.
    rewrite (Execute_returns f (exprObj def) w _ m _
               (Stack (Context w)) (exprObj def) Hm Hrun eq_refl eq_refl).
    unfold recorded. cbn [Context CtxErrors w1 set_Stack set_Errors Stack heap roots].
    rewrite Hm, length_app.
    replace (List.length m + List.length _ <=? List.length m)%nat with false
      by (symmetry; apply Nat.leb_gt; cbn; lia).
    destruct w as [[s e r] h]. reflexivity.
Qed.

(** X18: run by [Execute] as the DSL of an expression, [Reference]
    succeeds exactly when the expression is a media type or an attribute:
    [Execute] then returns true, the reference is stored in that
    expression and nothing is recorded.  On any other expression
    [Execute] returns false, the object graph is untouched and one record
    is added: "invalid use of %s" with the operand "Reference", whatever
    the package path is, followed by " in " and the expression's name when
    it has one.  In both cases the stack is the caller's again. *)
Theorem Execute_Reference (loc : string * nat) (t : DataType) (def : ExprObj)
        (w : World) (m : MultiError ExprObj) :
  CtxErrors (Context w) = Some m ->
  Execute (Some (Reference loc t)) (exprObj def) w =
  match typeOf def with
  | dsl.MediaTypeExpr | dsl.AttributeExpr =>
      Returns true (mkWorld (Context w) (store_Reference def t (heap w)))
  | _ =>
      Returns false
        (set_Errors
           (Some (m ++ [misuse_record "Reference" loc
                          (if String.eqb (EvalName_obj def (heap w)) EmptyString
                           then EmptyString
                           else (" in " ++ EvalName_obj def (heap w))%string)]))
           w)
  end.
Proof.
  intros Hm.
  rewrite (Execute_store_or_misuse (Reference loc t) "Reference"
             (match typeOf def with
              | dsl.MediaTypeExpr | dsl.AttributeExpr => true
              | _ => false
              end)
             (store_Reference def t) loc def w m Hm eq_refl).
  - destruct (typeOf def); reflexivity.
  - intros w1 Hs1. unfold dsl.Reference. rewrite (currentType_pushed w1 _ def Hs1).
    destruct (typeOf def); reflexivity.
Qed.

(** X19: run by [Execute] as the DSL of an expression, [TypeName]
    succeeds exactly when the expression is a media type or a user type:
    the name is stored in that expression, nothing is recorded and
    [Execute] returns true.  On any other expression, an attribute
    included, [Execute] returns false, the object graph is untouched and
    the one record added is "invalid use of %s" with the operand
    "TypeName" and the expression's name as the suffix. *)
Theorem Execute_TypeName (loc : string * nat) (name : string) (def : ExprObj)
        (w : World) (m : MultiError ExprObj) :
  CtxErrors (Context w) = Some m ->
  Execute (Some (TypeName loc name)) (exprObj def) w =
  match typeOf def with
  | dsl.MediaTypeExpr | dsl.UserTypeExpr =>
      Returns true (mkWorld (Context w) (store_TypeName def name (heap w)))
  | _ =>
      Returns false
        (set_Errors
           (Some (m ++ [misuse_record "TypeName" loc
                          (if String.eqb (EvalName_obj def (heap w)) EmptyString
                           then EmptyString
                           else (" in " ++ EvalName_obj def (heap w))%string)]))
           w)
  end.
Proof.
  intros Hm.
  rewrite (Execute_store_or_misuse (TypeName loc name) "TypeName"
             (match typeOf def with
              | dsl.MediaTypeExpr | dsl.UserTypeExpr => true
              | _ => false
              end)
             (store_TypeName def name) loc def w m Hm eq_refl).
  - destruct (typeOf def); reflexivity.
  - intros w1 Hs1. unfold dsl.TypeName. rewrite (currentType_pushed w1 _ def Hs1).
    destruct (typeOf def); reflexivity.
Qed.

(** X20: called while no expression is being evaluated, where [Current]
    returns [Top], each of [Reference], [TypeName] and [Media] reports its
    misuse and does nothing else: one record is added, "invalid use of %s
    (top level)" with the function's own name as the operand, and the
    stack, the roots and the object graph are as before. *)
Theorem DSL_functions_at_top_level (loc : string * nat) (t : DataType) (name : string)
        (val : dsl.mediaValue) (viewName : list string) (w : World) :
  Stack (Context w) = [] ->
  let reported function :=
    Returns tt (set_Errors
                  (Some (recorded w ++ [misuse_record function loc " (top level)"])) w) in
  Reference loc t w = reported "Reference" /\
  TypeName loc name w = reported "TypeName" /\
  Media loc val viewName w = reported "Media".
Proof.
  intros Hs reported. subst reported.
  unfold dsl.Reference, dsl.TypeName, dsl.Media.
  rewrite (currentType_top_level w Hs).
  rewrite !misuse_reports by reflexivity.
  rewrite (ReportError_suffix_top_level EvalName_obj w Hs).
  repeat split.
Qed.

(** X21: [Media] always returns and leaves the stack and the roots
    alone.  Outside a response it adds one record and leaves the object
    graph untouched.  In a response it adds one record when the value is
    neither a string nor a media type pointer, and one more when more
    than one view name is given; the second error does not undo the
    first part: a string given with two view names is stored as the
    response's media type, and no view name is. *)
Theorem Media_reports (loc : string * nat) (val : dsl.mediaValue) (viewName : list string)
        (w : World) :
  exists w',
    Media loc val viewName w = Returns tt w' /\
    Stack (Context w') = Stack (Context w) /\
    roots (Context w') = roots (Context w) /\
    List.length (recorded w') =
    (List.length (recorded w) +
     match currentType w with
     | Some (_, dsl.ResponseExpr) =>
         (match val with dsl.mediaOther _ => 1 | _ => 0 end) +
         (if (1 <? List.length viewName)%nat then 1 else 0)
     | _ => 1
     end)%nat /\
    match currentType w with
    | Some (r, dsl.ResponseExpr) =>
        forall identifier,
          val = dsl.mediaString identifier -> (1 < List.length viewName)%nat ->
          heap w' = store_MediaType r identifier (heap w)
    | _ => heap w' = heap w
    end.
Proof.
  assert (Hmis : exists w',
             misuse "Media" loc w = Returns tt w' /\
             Stack (Context w') = Stack (Context w) /\
             roots (Context w') = roots (Context w) /\
             List.length (recorded w') = (List.length (recorded w) + 1)%nat /\
             heap w' = heap w).
  { rewrite misuse_reports by reflexivity. eexists. split; [reflexivity |].
    repeat split. unfold recorded at 1. cbn. apply length_app. }
  unfold dsl.Media.
  destruct (currentType w) as [[r ty] |]; [| exact Hmis].
  destruct ty; try exact Hmis. clear Hmis.
  unfold bind, dsl.store, ret.
  destruct val as [[mt |] | identifier | v];
    try rewrite ReportError_unfold;
    (destruct viewName as [| v1 [| v2 rest]];
     try rewrite ReportError_unfold;
     eexists; (split; [reflexivity |]);
     cbn [Context Stack roots heap set_Errors CtxErrors List.length Nat.ltb Nat.leb];
     repeat split;
     try (unfold recorded; cbn [Context CtxErrors set_Errors];
          rewrite ?length_app; cbn [List.length]; lia);
     try (intros identifier0 Hv Hlen; inversion Hv; subst; cbn in Hlen; try lia; reflexivity)).
Qed.

End DSLFacts.

(** * The engine on the small DSL implementation *)

(** [Execute_panics_without_errors] on the first initializer of a run
    that starts without errors. *)
Lemma Execute_panics_without_errors_witness :
  CtxErrors (Context (Demo.start [0] None [exprObj 1] [])) = None /\
  Execute (Some (Demo.note "ran 1")) (exprObj 1) (Demo.start [0] None [exprObj 1] []) =
  Panics NilErrorsAssertion.
Proof.
  split; [reflexivity |].
  apply Execute_panics_without_errors. reflexivity.
Defined.

(** C1: the execute phase is one pass over the roots that [SortRoots]
    returned, whatever is registered meanwhile.  The initializer of
    expression 0, in the set of root 0, registers root 1, whose set holds
    expression 1: the run ends with root 1 registered and with the
    initializer of expression 1 never run. *)
Theorem registered_root_is_not_run :
  (forall (ExprObj RootObj Heap : Type)
          (Source_DSL : ExprObj -> option (World ExprObj RootObj Heap ->
                                           option (M ExprObj RootObj Heap unit)))
          (IterateSets : Root RootObj ->
                         (ExprSet ExprObj ->
                          M ExprObj RootObj Heap (option (engineError ExprObj))) ->
                         M ExprObj RootObj Heap unit)
          (rs : list (Root RootObj)) (w : World ExprObj RootObj Heap),
      executePhase Source_DSL IterateSets rs w =
      bind (iterate IterateSets rs (runSet Source_DSL)) (fun _ => ret None) w) /\
  Demo.run (Demo.start [0] (Some [Demo.declared]) [exprObj 0] [exprObj 1]) =
  Returns (Some (multiError [Demo.declared]))
          (mkWorld (mkContext [] (Some [Demo.declared]) [0; 1])
                   (Demo.mkGraph [exprObj 0] [exprObj 1] ["ran 0"])).
Proof.
  split; [| reflexivity].
  intros. apply executePhase_single_pass.
Qed.

(** C4: [runSet] is one pass over the elements of the set it received,
    whatever is appended meanwhile.  The initializer of expression 2
    appends expression 3 to the set it is in: [runSet] returns nil without
    running the initializer of expression 3.  The initializer of
    expression 4 appends a copy of expression 4 each time it runs:
    [runSet] runs it once and returns nil, not the "too many generated
    expressions" error. *)
Theorem appended_expression_is_not_run :
  (forall (ExprObj RootObj Heap : Type)
          (Source_DSL : ExprObj -> option (World ExprObj RootObj Heap ->
                                           option (M ExprObj RootObj Heap unit)))
          (set : ExprSet ExprObj) (w : World ExprObj RootObj Heap),
      runSet Source_DSL set w =
      bind (runSet_range Source_DSL set 0) (fun _ => ret None) w) /\
  Demo.iterateSets 0 (runSet Demo.dsl)
    (Demo.start [0] (Some [Demo.declared]) [exprObj 2] []) =
  Returns tt (mkWorld (mkContext [] (Some [Demo.declared]) [0])
                      (Demo.mkGraph [exprObj 2; exprObj 3] [] ["ran 2"])) /\
  runSet Demo.dsl [exprObj 4] (Demo.start [0] (Some [Demo.declared]) [exprObj 4] []) =
  Returns None (mkWorld (mkContext [] (Some [Demo.declared]) [0])
                        (Demo.mkGraph [exprObj 4; exprObj 4] [] ["ran 4"])).
Proof.
  split; [| split; reflexivity].
  intros. apply runSet_single_pass.
Qed.

(** C7, as stated, fails: reported from the initializer of the expression
    named "resource bottle", "bad value" is recorded as
    "bad value in resource bottle", and from the initializer of an
    expression without a name as "bad value"; neither is the line the
    specification gives. *)
Lemma ReportError_line_counterexample :
  Demo.report "bad value" (Demo.inside 6 None) =
  Returns tt (set_Errors (Some [Demo.bad_value " in resource bottle"]) (Demo.inside 6 None)) /\
  "bad value in resource bottle" <> specified_report_line "resource bottle" "bad value" /\
  Demo.report "bad value" (Demo.inside 5 None) =
  Returns tt (set_Errors (Some [Demo.bad_value EmptyString]) (Demo.inside 5 None)) /\
  "bad value" <> specified_report_line EmptyString "bad value".
Proof. repeat split; try reflexivity; discriminate. Qed.


Lemma Demo_reaches (a b : nat) :
  clos_trans nat (depends Demo.dependsOn) a b -> (a = 2 /\ b = 4) \/ (5 <= a <= 6)%nat.
Proof.
  induction 1 as [a b H | a b c _ IH1 _ IH2].
  - unfold depends, Demo.dependsOn in H.
    destruct a as [| [| [| [| [| [| [| a]]]]]]]; cbn in H;
      try contradiction; destruct H as [<- | []]; auto; right; lia.
  - lia.
Qed.

Lemma Demo_independent_2_3 : independent Demo.dependsOn 2 3.
Proof. split; intros H; apply Demo_reaches in H; lia. Qed.

Lemma Demo_independent_3_4 : independent Demo.dependsOn 3 4.
Proof. split; intros H; apply Demo_reaches in H; lia. Qed.

Ltac refute_before H :=
  cbn in H;
  repeat match type of H with
         | _ \/ _ => destruct H as [H | H]
         | _ /\ _ => let E := fresh "E" in destruct H as [E H]; try discriminate E
         end;
  try contradiction; try discriminate H.

Lemma Demo_before_2_3 : before [2; 3; 4] 2 3.
Proof. cbn. auto. Qed.

Lemma Demo_before_3_4 : before [2; 3; 4] 3 4.
Proof. cbn. auto. Qed.

Lemma Permutation_three (a b c : nat) (out : list nat) :
  Permutation [a; b; c] out ->
  out = [a; b; c] \/ out = [a; c; b] \/ out = [b; a; c] \/
  out = [b; c; a] \/ out = [c; a; b] \/ out = [c; b; a].
Proof.
  intros H.
  destruct (Permutation_vs_cons_inv (Permutation_sym H)) as (l1 & l2 & ->).
  apply Permutation_cons_app_inv in H.
  apply Permutation_length_2_inv in H.
  destruct l1 as [| x [| y [| z l1]]]; cbn in H |- *;
    destruct H as [H | H]; inversion H; subst; auto 10;
    destruct l1; discriminate.
Qed.

(** C5, as stated, fails on roots 2, 3, 4 registered in this order, root 2
    depending on root 4: the schedule is 3, 4, 2, in which root 3 comes
    before root 2 although the two are independent and root 2 was
    registered first; and no order of the three roots puts dependencies
    first and keeps the registration order of independent roots. *)
Lemma registration_order_counterexample :
  SortRoots (ExprObj := nat) Demo.dslName Demo.dependsOn Nat.eq_dec
            (mkContext [] None [2; 3; 4]) = inl [3; 4; 2] /\
  acyclic Demo.dependsOn [2; 3; 4] /\
  ~ keeps_registration_order Demo.dependsOn [2; 3; 4] [3; 4; 2] /\
  (forall out,
      Permutation [2; 3; 4] out ->
      dependencies_first Demo.dependsOn out ->
      ~ keeps_registration_order Demo.dependsOn [2; 3; 4] out).
Proof.
  assert (Hall : forall out,
             Permutation [2; 3; 4] out ->
             dependencies_first Demo.dependsOn out ->
             ~ keeps_registration_order Demo.dependsOn [2; 3; 4] out).
  { intros out Hperm Hdeps Hkeep.
    pose proof (Hkeep 2 3 Demo_independent_2_3 Demo_before_2_3) as B1.
    pose proof (Hkeep 3 4 Demo_independent_3_4 Demo_before_3_4) as B2.
    assert (D : forall l1 l2, out = l1 ++ 2 :: l2 -> In 4 l1).
    { intros l1 l2 E. apply (Hdeps l1 2 l2 E 4). left. reflexivity. }
    apply Permutation_three in Hperm.
    destruct Hperm as [-> | [-> | [-> | [-> | [-> | ->]]]]].
    - apply (D [] [3; 4] eq_refl).
    - apply (D [] [4; 3] eq_refl).
    - refute_before B1.
    - refute_before B1.
    - refute_before B2.
    - refute_before B1. }
  split; [reflexivity |].
  split.
  { intros r Hr H. apply Demo_reaches in H.
    destruct Hr as [<- | [<- | [<- | []]]]; lia. }
  split.
  - intros Hkeep.
    pose proof (Hkeep 2 3 Demo_independent_2_3 Demo_before_2_3) as B1.
    refute_before B1.
  - exact Hall.
Qed.

(** ** The theorems at work on the small DSL implementation *)

(** [Current] on an empty stack, inside the initializer of expression 6,
    inside a nested evaluation of expression 5, and after a nested
    evaluation that reported an error. *)
Lemma Current_reports_top_of_stack_witness :
  Current (Demo.start [0] None [] []) = Top /\
  Current (Demo.inside 6 None) = exprObj 6 /\
  Current (set_Stack (Stack (Context (Demo.inside 6 None)) ++ [exprObj 5])
                     (Demo.inside 6 None)) = exprObj 5 /\
  exists w', Execute (Some (Demo.report "bad value")) (exprObj 5)
                     (Demo.inside 6 (Some [Demo.declared])) = Returns false w' /\
             Current w' = Current (Demo.inside 6 (Some [Demo.declared])).
Proof.
  pose proof (@Current_reports_top_of_stack nat nat Demo.graph unit Demo.names Demo.verbs)
    as (H1 & H2 & H3 & _ & H5).
  split; [apply H1; reflexivity |].
  split; [apply (H2 (Demo.inside 6 None) [] (exprObj 6)); [discriminate | reflexivity] |].
  split; [apply H3; discriminate |].
  apply (H5 (Demo.inside 6 (Some [Demo.declared])) (exprObj 5) [Demo.declared]).
  reflexivity.
Defined.

(** "bad value" reported from the initializer of "resource bottle", and
    from the initializer of an expression named "rate 100%s", whose verb
    [fmt] reads and finds no operand for. *)
Lemma ReportError_appends_context_suffix_witness :
  (exists suffix : string,
      Demo.report "bad value" (Demo.inside 6 None) =
      Returns tt
        (set_Errors
           (Some [mkError (Some (errorString (Sprintf Demo.verbs ("bad value" ++ suffix)%string [])))
                    "design.go" 12])
           (Demo.inside 6 None)) /\
      suffix = " in resource bottle" /\
      Sprintf Demo.verbs ("bad value" ++ " in resource bottle")%string [] =
      "bad value in resource bottle") /\
  ReportError Sample.rate Sample.verbs Demo.here "bad value" [] (Demo.inside 6 None) =
  Returns tt
    (set_Errors
       (Some [mkError (Some (errorString "bad value in rate 100%!s(MISSING)")) "design.go" 12])
       (Demo.inside 6 None)).
Proof.
  split.
  - destruct (ReportError_appends_context_suffix Demo.names Demo.verbs Demo.here
                "bad value" [] (Demo.inside 6 None)) as (suffix & H1 & _ & H3 & H4 & _).
    pose proof (H3 [] (exprObj 6) "resource bottle" eq_refl eq_refl) as E.
    exists suffix. split; [exact H1 |]. split; [exact E |].
    rewrite E in H4. apply H4; reflexivity.
  - destruct (ReportError_appends_context_suffix Sample.rate Sample.verbs Demo.here
                "bad value" [] (Demo.inside 6 None)) as (suffix & H1 & _ & H3 & _ & H5 & _).
    pose proof (H3 [] (exprObj 6) "rate 100%s" eq_refl eq_refl) as E.
    cbn in E. subst suffix.
    rewrite H5 in H1 by (right; right; reflexivity).
    exact H1.
Defined.

(** Batches built with [AddError], [Add] and [Merge]. *)
Lemma ValidationErrors_lengths_agree_witness :
  paired (AddError (mkValidationErrors [Some (errorString "no response")] [exprObj 8])
                   (exprObj 7) (Some Demo.batch7)) /\
  paired (Add Demo.verbs (mkValidationErrors [] []) (exprObj 7) "missing name" []) /\
  paired (Merge (mkValidationErrors [Some (errorString "no response")] [exprObj 8])
                (Some (mkValidationErrors [Some (errorString "missing name")] [exprObj 7]))) /\
  exists x, nth_error (Exprs (mkValidationErrors [Some (errorString "no response")]
                                                 [exprObj 8 : Expr nat])) 0 = Some x.
Proof.
  pose proof (@ValidationErrors_lengths_agree nat unit Demo.verbs)
    as (H0 & H1 & H2 & H3 & H4).
  split; [apply H2; reflexivity |].
  split; [apply H1; exact H0 |].
  split; [apply H3; [reflexivity | intros e E; inversion E; reflexivity] |].
  apply H4; [reflexivity | cbn; lia].
Defined.


(** A run stopped after the execute phase, and a run stopped after the
    validate phase. *)
Lemma RunDSL_errors_gate_phases_witness :
  Demo.run Demo.reporting =
  Returns (Some (multiError [Demo.declared; Demo.bad_value " in resource bottle";
                             Demo.bad_value EmptyString]))
          Demo.reporting_executed /\
  Demo.run Demo.invalid =
  Returns (Some (multiError (recorded Demo.invalid_validated))) Demo.invalid_validated.
Proof.
  split.
  - apply (proj1 (RunDSL_errors_gate_phases
                    Demo.dsl Demo.validate Demo.finalize Demo.iterateSets
                    Demo.dslName Demo.dependsOn Nat.eq_dec
                    Demo.reporting Demo.reporting_executed [0; 1] None
                    eq_refl ltac:(discriminate) eq_refl)).
    reflexivity.
  - apply (proj1 (proj2 (RunDSL_errors_gate_phases
                           Demo.dsl Demo.validate Demo.finalize Demo.iterateSets
                           Demo.dslName Demo.dependsOn Nat.eq_dec
                           Demo.invalid Demo.invalid [0; 1] None
                           eq_refl ltac:(discriminate) eq_refl))
                 Demo.invalid_validated); reflexivity.
Defined.


(** Roots 2, 3, 4 with 2 depending on 4, and roots 5, 6, 3 with 5 and 6
    depending on each other. *)
Lemma SortRoots_dependencies_first_witness :
  (exists out,
      SortRoots (ExprObj := nat) Demo.dslName Demo.dependsOn Nat.eq_dec
                (Context (Demo.start [2; 3; 4] None [] [])) = inl out /\
      Permutation [2; 3; 4] out /\
      dependencies_first Demo.dependsOn out /\
      overtaken_only_waiting Demo.dependsOn [2; 3; 4] out) /\
  (exists stuck,
      SortRoots (ExprObj := nat) Demo.dslName Demo.dependsOn Nat.eq_dec
                (Context (Demo.start [5; 6; 3] None [] [])) =
      inr (cycle_error Demo.dslName stuck) /\
      In 5 stuck /\
      Demo.run (Demo.start [5; 6; 3] None [] []) =
      Returns (Some (plainError (cycle_error Demo.dslName stuck)))
              (Demo.start [5; 6; 3] None [] [])).
Proof.
  split.
  - destruct (proj1 (SortRoots_dependencies_first
                       Demo.dsl Demo.validate Demo.finalize Demo.iterateSets
                       Demo.dslName Demo.dependsOn Nat.eq_dec
                       (Demo.start [2; 3; 4] None [] [])))
      as (out & Hs & Hperm & Hdeps & Hstab).
    + intros r Hr H. apply Demo_reaches in H.
      destruct Hr as [<- | [<- | [<- | []]]]; lia.
    + intros r d Hr Hd.
      destruct Hr as [<- | [<- | [<- | []]]]; cbn in Hd; try contradiction.
      destruct Hd as [<- | []]. cbn. auto.
    + exists out. repeat split; auto.
      apply Hstab. repeat constructor; cbn; lia.
  - apply (proj2 (SortRoots_dependencies_first
                    Demo.dsl Demo.validate Demo.finalize Demo.iterateSets
                    Demo.dslName Demo.dependsOn Nat.eq_dec
                    (Demo.start [5; 6; 3] None [] [])) 5).
    + cbn. auto.
    + apply t_trans with (y := 6); apply t_step; cbn; auto.
Defined.

(** * Properties of the attribute validations *)

Section ValidationFacts.

Context {Value F : Type}.
Variable gtF : F -> F -> bool.
Variable ltF : F -> F -> bool.

Local Abbreviation ValidationExpr := (design.ValidationExpr Value F).
Local Abbreviation Merge := (design.Merge gtF ltF).

Lemma found_spec (r : string) (required : list string) :
  design.found r required = true <-> In r required.
Proof.
  unfold design.found. rewrite existsb_exists. split.
  - intros (x & Hx & E). apply String.eqb_eq in E. subst. exact Hx.
  - intros H. exists r. split; [exact H | apply String.eqb_refl].
Qed.

Lemma AddRequired_range_In (required : list string) :
  forall (vRequired : list string) (x : string),
    In x (design.AddRequired_range required vRequired) <->
    In x vRequired \/ In x required.
Proof.
  induction required as [| r rest IH]; intros vRequired x; cbn [design.AddRequired_range].
  - cbn. tauto.
  - rewrite IH. destruct (design.found r vRequired) eqn:Hf.
    + apply found_spec in Hf. cbn. split; [tauto |].
      intros [H | [<- | H]]; auto.
    + rewrite in_app_iff. cbn. tauto.
Qed.

Lemma AddRequired_range_tail (required : list string) :
  forall vRequired : list string,
    exists tail,
      design.AddRequired_range required vRequired = vRequired ++ tail /\
      NoDup tail /\
      (forall x, In x tail -> ~ In x vRequired).
Proof.
  induction required as [| r rest IH]; intros vRequired; cbn [design.AddRequired_range].
  - exists []. rewrite app_nil_r. repeat split; [constructor | intros x []].
  - destruct (design.found r vRequired) eqn:Hf; [apply IH |].
    destruct (IH (vRequired ++ [r])) as (tail & E & Hnd & Hnew).
    exists (r :: tail). rewrite E, <- app_assoc. split; [reflexivity |].
    assert (Hr : ~ In r vRequired).
    { intros H. apply found_spec in H. congruence. }
    split.
    + constructor; [| exact Hnd].
      intros H. apply (Hnew r H). apply in_or_app. right. left. reflexivity.
    + intros x [<- | H]; [exact Hr |].
      intros Hx. apply (Hnew x H). apply in_or_app. left. exact Hx.
Qed.

Lemma AddRequired_range_present (required : list string) :
  forall vRequired : list string,
    incl required vRequired -> design.AddRequired_range required vRequired = vRequired.
Proof.
  induction required as [| r rest IH]; intros vRequired Hincl; cbn [design.AddRequired_range].
  - reflexivity.
  - assert (Hf : design.found r vRequired = true).
    { apply found_spec. apply Hincl. left. reflexivity. }
    rewrite Hf. apply IH. intros x Hx. apply Hincl. right. exact Hx.
Qed.

(** X12: [AddRequired] keeps the required fields of the receiver, in
    their order, and appends, once each, the given fields that are not
    there yet: a field is required afterwards exactly when it was
    required before or is given, a receiver without duplicates stays
    without duplicates, and no other rule is touched. *)
Theorem AddRequired_appends_missing (v : ValidationExpr) (required : list string) :
  (forall x, In x (design.Required (design.AddRequired v required)) <->
             In x (design.Required v) \/ In x required) /\
  (exists tail,
      design.AddRequired v required =
      design.set_Required v (design.Required v ++ tail) /\
      NoDup tail /\
      (forall x, In x tail -> ~ In x (design.Required v))) /\
  (NoDup (design.Required v) ->
   NoDup (design.Required (design.AddRequired v required))).
Proof.
  destruct (AddRequired_range_tail required (design.Required v)) as (tail & E & Hnd & Hnew).
  split; [intros x; apply AddRequired_range_In |].
  split.
  - exists tail. unfold design.AddRequired. rewrite E. auto.
  - intros Hv. unfold design.AddRequired. cbn [design.set_Required design.Required].
    rewrite E. apply NoDup_app; auto.
    intros x Hx Ht. exact (Hnew x Ht Hx).
Qed.

(** X13: [AddRequired] changes nothing when the given fields are all
    required already; in particular it is idempotent, and applying it
    in two steps is applying it to the two lists in a row. *)
Theorem AddRequired_idempotent (v : ValidationExpr) (r1 r2 : list string) :
  (incl r1 (design.Required v) -> design.AddRequired v r1 = v) /\
  design.AddRequired (design.AddRequired v r1) r1 = design.AddRequired v r1 /\
  design.AddRequired (design.AddRequired v r1) r2 = design.AddRequired v (r1 ++ r2).
Proof.
  assert (Hpresent : forall (u : ValidationExpr) r,
             incl r (design.Required u) -> design.AddRequired u r = u).
  { intros u r H. unfold design.AddRequired.
    rewrite (AddRequired_range_present r _ H). destruct u. reflexivity. }
  split; [apply Hpresent |].
  split.
  - apply Hpresent. intros x Hx.
    apply AddRequired_range_In. right. exact Hx.
  - unfold design.AddRequired, design.set_Required. cbn [design.Required design.Values
      design.Format design.Pattern design.Minimum design.Maximum design.MinLength
      design.MaxLength].
    f_equal. generalize (design.Required v). clear.
    induction r1 as [| r rest IH]; intros l; cbn; [reflexivity | apply IH].
Qed.

Lemma take_other_min (x y : option Z) :
  design.take_other Z.gtb x y =
  match x, y with
  | Some a, Some b => Some (Z.min a b)
  | Some a, None => Some a
  | None, _ => y
  end.
Proof.
  destruct x as [a |], y as [b |]; cbn; try reflexivity.
  destruct (Z.gtb_spec a b); f_equal; lia.
Qed.

Lemma take_other_max (x y : option Z) :
  design.take_other Z.ltb x y =
  match x, y with
  | Some a, Some b => Some (Z.max a b)
  | Some a, None => Some a
  | None, _ => y
  end.
Proof.
  destruct x as [a |], y as [b |]; cbn; try reflexivity.
  destruct (Z.ltb_spec a b); f_equal; lia.
Qed.

(** X14: [Merge] combines two validations rule by rule: the enum values,
    the format and the pattern of the receiver win when it has them; of
    two length bounds the smaller [MinLength] and the larger [MaxLength]
    are kept, a single bound is kept as it is; and a field is required
    afterwards exactly when either validation requires it.  Merging a nil
    validation panics. *)
Theorem Merge_rule_by_rule (v o : ValidationExpr) :
  Merge v None = None /\
  exists m,
    Merge v (Some o) = Some m /\
    design.Values m = match design.Values v with
                      | Some vs => Some vs
                      | None => design.Values o
                      end /\
    design.Format m = (if String.eqb (design.Format v) EmptyString
                       then design.Format o else design.Format v) /\
    design.Pattern m = (if String.eqb (design.Pattern v) EmptyString
                        then design.Pattern o else design.Pattern v) /\
    design.MinLength m = match design.MinLength v, design.MinLength o with
                         | Some a, Some b => Some (Z.min a b)
                         | Some a, None => Some a
                         | None, b => b
                         end /\
    design.MaxLength m = match design.MaxLength v, design.MaxLength o with
                         | Some a, Some b => Some (Z.max a b)
                         | Some a, None => Some a
                         | None, b => b
                         end /\
    (forall x, In x (design.Required m) <->
               In x (design.Required v) \/ In x (design.Required o)).
Proof.
  split; [reflexivity |].
  eexists. split; [reflexivity |].
  cbn [design.AddRequired design.set_Required design.Values design.Format design.Pattern
       design.MinLength design.MaxLength design.Required].
  split; [destruct (design.Values v); reflexivity |].
  split; [reflexivity |]. split; [reflexivity |].
  split; [apply take_other_min |]. split; [apply take_other_max |].
  intros x. apply AddRequired_range_In.
Qed.

(** X15: merging a validation into itself changes nothing, given that no
    [float64] is greater or smaller than itself. *)
Theorem Merge_idempotent (v : ValidationExpr) :
  (forall x, gtF x x = false) ->
  (forall x, ltF x x = false) ->
  Merge v (Some v) = Some v.
Proof.
  intros Hgt Hlt. unfold design.Merge, design.AddRequired, design.set_Required.
  cbn [design.Values design.Format design.Pattern design.Minimum design.Maximum
       design.MinLength design.MaxLength design.Required].
  rewrite (AddRequired_range_present (design.Required v) (design.Required v))
    by (intros x Hx; exact Hx).
  destruct v as [vs fmt pat mn mx mnl mxl req]. cbn.
  f_equal. f_equal.
  - destruct vs; reflexivity.
  - destruct (String.eqb fmt EmptyString); reflexivity.
  - destruct (String.eqb pat EmptyString); reflexivity.
  - destruct mn as [x |]; cbn; [rewrite Hgt |]; reflexivity.
  - destruct mx as [x |]; cbn; [rewrite Hlt |]; reflexivity.
  - destruct mnl as [x |]; cbn; [rewrite Z.gtb_ltb, Z.ltb_irrefl |]; reflexivity.
  - destruct mxl as [x |]; cbn; [rewrite Z.ltb_irrefl |]; reflexivity.
Qed.

Lemma HasRequiredOnly_spec (v : ValidationExpr) :
  design.HasRequiredOnly v = true <->
  match design.Values v with Some (_ :: _) => False | _ => True end /\
  design.Format v = EmptyString /\
  design.Pattern v = EmptyString /\
  design.Minimum v = None /\
  design.Maximum v = None /\
  design.MaxLength v = None.
Proof.
  unfold design.HasRequiredOnly.
  destruct v as [vs fmt pat mn mx mnl mxl req]. cbn.
  destruct vs as [[| x vs] |]; cbn;
    destruct (String.eqb_spec fmt EmptyString); cbn;
    destruct (String.eqb_spec pat EmptyString); cbn;
    destruct mn, mx, mxl; cbn; split; intros H;
    try discriminate; try tauto;
    try (destruct H as (? & ? & ? & ? & ? & ?); congruence).
Qed.

Lemma take_other_None {A : Type} (cmp : A -> A -> bool) (x y : option A) :
  design.take_other cmp x y = None <-> x = None /\ y = None.
Proof.
  destruct x as [a |], y as [b |]; cbn; try destruct (cmp a b);
    split; intros H; try discriminate; try tauto; destruct H; discriminate.
Qed.

(** X16: [HasRequiredOnly] does not look at [MinLength] nor at
    [Required]; merging two validations that pass it gives one that
    passes it, and a merged validation passes it only if the receiver
    did. *)
Theorem HasRequiredOnly_Merge (v o m : ValidationExpr) :
  Merge v (Some o) = Some m ->
  (forall (minLength : option Z) (required : list string),
      design.HasRequiredOnly
        (design.mkValidationExpr (design.Values v) (design.Format v) (design.Pattern v)
                                 (design.Minimum v) (design.Maximum v) minLength
                                 (design.MaxLength v) required) =
      design.HasRequiredOnly v) /\
  (design.HasRequiredOnly v = true -> design.HasRequiredOnly o = true ->
   design.HasRequiredOnly m = true) /\
  (design.HasRequiredOnly m = true -> design.HasRequiredOnly v = true).
Proof.
  intros H. inversion H as [E]. clear H E.
  split; [reflexivity |].
  rewrite !HasRequiredOnly_spec.
  cbn [design.AddRequired design.set_Required design.Values design.Format design.Pattern
       design.Minimum design.Maximum design.MinLength design.MaxLength design.Required].
  rewrite !take_other_None.
  split.
  - intros (Hv & -> & -> & -> & -> & ->) (Ho & -> & -> & -> & -> & ->).
    cbn. repeat split; auto.
    destruct (design.Values v) as [[| x vs] |]; auto.
  - intros (Hm & Hf & Hp & [Hmn _] & [Hmx _] & [Hml _]).
    repeat split; auto.
    + destruct (design.Values v) as [[| x vs] |]; auto.
    + destruct (String.eqb_spec (design.Format v) EmptyString); auto.
    + destruct (String.eqb_spec (design.Pattern v) EmptyString); auto.
Qed.

End ValidationFacts.

(** * The further properties on the small DSL implementations *)

(** The initializer of "resource bottle" reports one error. *)
Lemma Execute_reports_new_errors_witness :
  Execute (Some (Demo.report "bad value")) (exprObj 6)
          (Demo.start [0] (Some [Demo.declared]) [] []) =
  Returns false
          (Demo.start [0] (Some [Demo.declared; Demo.bad_value " in resource bottle"]) [] []).
Proof.
  destruct (Execute_reports_new_errors
              (Demo.report "bad value") (exprObj 6)
              (Demo.start [0] (Some [Demo.declared]) [] [])
              (mkWorld (mkContext [exprObj 6]
                                  (Some [Demo.declared; Demo.bad_value " in resource bottle"])
                                  [0])
                       (Demo.mkGraph [] [] []))
              [Demo.declared] [Demo.declared; Demo.bad_value " in resource bottle"]
              eq_refl eq_refl eq_refl eq_refl) as (b & Hrun & _ & Hfalse).
  assert (Hb : b = false) by (apply Hfalse; cbn; lia).
  rewrite Hb in Hrun. exact Hrun.
Defined.

(** An initializer that reports nothing, run with an empty, non-nil
    error collection. *)
Lemma Execute_returns_iff_witness :
  Execute (Some (Demo.note "ran 1")) (exprObj 1) (Demo.start [0] (Some []) [] []) =
  Returns true (mkWorld (mkContext [] (Some []) [0]) (Demo.mkGraph [] [] ["ran 1"])).
Proof.
  apply Execute_returns_iff.
  exists [], (mkWorld (mkContext [exprObj 1] (Some []) [0]) (Demo.mkGraph [] [] ["ran 1"])),
         [], [], (exprObj 1).
  repeat split.
Defined.

(** A set of a source whose [DSL()] is nil and a plain expression, with
    [Context.Errors] nil. *)
Lemma runSet_without_DSL_witness :
  runSet Sample.source [exprObj 30; exprObj 31] Sample.clean = Returns None Sample.clean.
Proof.
  apply runSet_without_DSL.
  intros o DSL Hin Hsrc.
  destruct Hin as [E | [E | []]]; inversion E; subst o; cbn in Hsrc;
    [inversion Hsrc; reflexivity | discriminate Hsrc].
Defined.

(** The two reporting initializers of the design [Demo.reporting]. *)
Lemma runSet_keeps_stack_witness :
  exists w' m',
    runSet Demo.dsl [exprObj 6; exprObj 5] Demo.reporting = Returns None w' /\
    Stack (Context w') = Stack (Context Demo.reporting) /\
    CtxErrors (Context w') = Some m' /\
    (List.length [Demo.declared] <= List.length m')%nat.
Proof.
  apply (runSet_keeps_stack Demo.dsl [exprObj 6; exprObj 5] Demo.reporting [Demo.declared]);
    [| reflexivity].
  intros o DSL w f Hin Hsrc Hf.
  destruct Hin as [E | [E | []]]; inversion E; subst o; cbn in Hsrc;
    inversion Hsrc; subst DSL; inversion Hf; subst f;
    apply ReportError_orderly.
Defined.

(** No root is registered, and an error was reported at declaration. *)
Lemma RunDSL_without_roots_witness :
  Demo.run (Demo.start [] (Some [Demo.declared]) [] []) =
  Returns None (Demo.start [] (Some [Demo.declared]) [] []).
Proof. apply RunDSL_without_roots. reflexivity. Defined.

(** The clean design: the run returns nil although its finalizer left an
    error in [Context.Errors]. *)
Lemma RunDSL_returns_nil_iff_witness :
  Sample.run Sample.clean = Returns None Sample.clean_run /\
  CtxErrors (Context Sample.clean_run) =
  Some [mkError (Some (errorString "finalized late (top level)")) "design.go" 12].
Proof.
  split; [| reflexivity].
  apply (proj2 (RunDSL_returns_nil_iff
                  Sample.source Sample.validate Sample.finalize Demo.iterateSets
                  Demo.dslName Demo.dependsOn Nat.eq_dec
                  Sample.clean Sample.clean_run [0] eq_refl ltac:(discriminate))).
  exists Sample.clean,
    (mkWorld (Context Sample.clean)
             (Demo.mkGraph [exprObj 30; exprObj 31] [] ["validated 30"])).
  repeat split.
Defined.

Lemma Demo_validators_answer (def : Expr nat) (V : Demo.Cb (option (error nat)))
      (w0 w1 : Demo.W) (err : option (error nat)) :
  In def [exprObj 7; exprObj 8] ->
  asValidator Demo.validate def = Some V ->
  V w0 = Returns err w1 ->
  Context w1 = Context w0 /\
  (err = Some Demo.batch7 \/ err = Some (errorString "no response")).
Proof.
  intros Hin HV Hrun.
  destruct Hin as [E | [E | []]]; subst def; cbn in HV; inversion HV; subst V;
    cbv in Hrun; inversion Hrun; subst; split; auto.
Qed.

(** The validators of "resource bottle" and "action show". *)
Lemma validateSet_batch_invariants_witness :
  paired (mkValidationErrors
            [Some (errorString "missing name"); Some (errorString "missing view");
             Some (errorString "no response")]
            [exprObj 8; exprObj 8; exprObj 8]) /\
  flat (mkValidationErrors
          [Some (errorString "missing name"); Some (errorString "missing view");
           Some (errorString "no response")]
          [@exprObj nat 8; exprObj 8; exprObj 8]).
Proof.
  destruct (validateSet_batch_invariants
              Demo.validate [exprObj 7; exprObj 8]
              (mkValidationErrors
                 [Some (errorString "missing name"); Some (errorString "missing view");
                  Some (errorString "no response")]
                 [exprObj 8; exprObj 8; exprObj 8])
              Demo.invalid
              (mkWorld (Context Demo.invalid)
                       (Demo.mkGraph [exprObj 7; exprObj 8] [] ["validated 7"; "validated 8"]))
              eq_refl) as [Hp Hf].
  split; [apply Hp | apply Hf]; intros def V w0 err w1 Hin HV Hrun;
    destruct (Demo_validators_answer def V w0 w1 err Hin HV Hrun) as [_ [-> | ->]];
    cbn; repeat constructor.
Defined.

Lemma validateSet_records_once_witness :
  exists errors w1,
    validateSet_range Demo.validate [exprObj 7; exprObj 8] (mkValidationErrors [] [])
                      Demo.invalid = Returns errors w1 /\
    Context w1 = Context Demo.invalid /\
    Some (multiError (recorded Demo.invalid_validated)) = Context_Errors Demo.invalid_validated /\
    (Errors errors = [] -> Demo.invalid_validated = w1) /\
    (Errors errors <> [] ->
     Demo.invalid_validated =
     set_Errors
       (Some (recorded Demo.invalid ++ [mkError (Some (batch_error errors)) EmptyString 0]))
       w1).
Proof.
  apply (validateSet_records_once Demo.validate [exprObj 7; exprObj 8] Demo.invalid
           Demo.invalid_validated (Some (multiError (recorded Demo.invalid_validated)))).
  - intros def V w0 err w1 Hin HV Hrun.
    exact (proj1 (Demo_validators_answer def V w0 w1 err Hin HV Hrun)).
  - reflexivity.
Defined.

(** A batch with an error and no owner. *)
Lemma ValidationErrors_Error_returns_iff_witness :
  ValidationErrors_Error Demo.names EmptyString (Demo.mkGraph [] [] [])
    (mkValidationErrors [Some (errorString "no response")] []) = None.
Proof.
  apply (proj2 (ValidationErrors_Error_returns_iff Demo.names EmptyString
                  (Demo.mkGraph [] [] [])
                  (mkValidationErrors [Some (errorString "no response")] []))).
  cbn. lia.
Defined.

Lemma ValidationErrors_Error_Merge_witness :
  ValidationErrors_Error Demo.names EmptyString (Demo.mkGraph [] [] [])
    (Merge (mkValidationErrors [Some (errorString "missing name")] [exprObj 8])
           (Some (mkValidationErrors [Some (errorString "no response")] [exprObj 6]))) =
  Some ("action show: missing name" ++ NL ++ "resource bottle: no response")%string.
Proof.
  apply (ValidationErrors_Error_Merge Demo.names EmptyString (Demo.mkGraph [] [] [])
           (mkValidationErrors [Some (errorString "missing name")] [exprObj 8])
           (mkValidationErrors [Some (errorString "no response")] [exprObj 6])
           "action show: missing name" "resource bottle: no response");
    reflexivity.
Defined.

Lemma AddRequired_appends_missing_witness :
  NoDup (design.Required (design.AddRequired Sample.rules ["name"; "vintage"; "vintage"])).
Proof.
  apply (proj2 (proj2 (AddRequired_appends_missing Sample.rules
                         ["name"; "vintage"; "vintage"]))).
  cbn. constructor; [intros [] | constructor].
Defined.

Lemma AddRequired_idempotent_witness :
  design.AddRequired Sample.required_only ["vintage"; "name"] = Sample.required_only.
Proof.
  apply (proj1 (AddRequired_idempotent Sample.required_only ["vintage"; "name"] [])).
  intros x [<- | [<- | []]]; cbn; auto.
Defined.

Lemma Merge_idempotent_witness :
  design.Merge Z.gtb Z.ltb Sample.rules (Some Sample.rules) = Some Sample.rules.
Proof.
  apply Merge_idempotent.
  - intros x. rewrite Z.gtb_ltb. apply Z.ltb_irrefl.
  - intros x. apply Z.ltb_irrefl.
Defined.

Lemma HasRequiredOnly_Merge_witness :
  design.HasRequiredOnly
    (design.mkValidationExpr (F := Z) (@None (list string)) EmptyString EmptyString
                             None None (Some 2%Z) None
                             ["name"; "vintage"; "origin"]) = true.
Proof.
  apply (proj1 (proj2
    (HasRequiredOnly_Merge Z.gtb Z.ltb Sample.required_only
       (design.mkValidationExpr None EmptyString EmptyString None None (Some 3%Z) None
                                ["origin"; "name"])
       (design.mkValidationExpr None EmptyString EmptyString None None (Some 2%Z) None
                                ["name"; "vintage"; "origin"])
       eq_refl))); reflexivity.
Defined.

(** [Reference] as the DSL of a media type and of a resource. *)
Lemma Execute_Reference_witness :
  Execute (Some (Sample.Reference "Bottle")) (exprObj 20)
          (Demo.start [0] (Some [Demo.declared]) [] []) =
  Returns true (mkWorld (mkContext [] (Some [Demo.declared]) [0])
                        (Demo.mkGraph [] [] ["media type bottle: Reference = Bottle"])) /\
  Execute (Some (Sample.Reference "Bottle")) (exprObj 24)
          (Demo.start [0] (Some [Demo.declared]) [] []) =
  Returns false
          (Demo.start [0] (Some [Demo.declared;
                                 Sample.invalid_use "Reference" " in resource bottle"])
                      [] []).
Proof.
  split.
  - apply (Execute_Reference Sample.names Sample.verbs (fun s => s) Sample.typeOf
             (Sample.store_field "Reference") Sample.pkg Demo.here "Bottle" 20
             (Demo.start [0] (Some [Demo.declared]) [] []) [Demo.declared] eq_refl).
  - apply (Execute_Reference Sample.names Sample.verbs (fun s => s) Sample.typeOf
             (Sample.store_field "Reference") Sample.pkg Demo.here "Bottle" 24
             (Demo.start [0] (Some [Demo.declared]) [] []) [Demo.declared] eq_refl).
Defined.

(** [TypeName] as the DSL of a user type and of an attribute. *)
Lemma Execute_TypeName_witness :
  Execute (Some (Sample.TypeName "Account")) (exprObj 23)
          (Demo.start [0] (Some [Demo.declared]) [] []) =
  Returns true (mkWorld (mkContext [] (Some [Demo.declared]) [0])
                        (Demo.mkGraph [] [] ["type account: TypeName = Account"])) /\
  Execute (Some (Sample.TypeName "Account")) (exprObj 21)
          (Demo.start [0] (Some [Demo.declared]) [] []) =
  Returns false
          (Demo.start [0] (Some [Demo.declared;
                                 Sample.invalid_use "TypeName" " in attribute name"])
                      [] []).
Proof.
  split.
  - apply (Execute_TypeName Sample.names Sample.verbs (fun s => s) Sample.typeOf
             (Sample.store_field "TypeName") Sample.pkg Demo.here "Account" 23
             (Demo.start [0] (Some [Demo.declared]) [] []) [Demo.declared] eq_refl).
  - apply (Execute_TypeName Sample.names Sample.verbs (fun s => s) Sample.typeOf
             (Sample.store_field "TypeName") Sample.pkg Demo.here "Account" 21
             (Demo.start [0] (Some [Demo.declared]) [] []) [Demo.declared] eq_refl).
Defined.

(** The three functions called while the design is declared, with
    [Context.Errors] nil. *)
Lemma DSL_functions_at_top_level_witness :
  Sample.Reference "Bottle" (Demo.start [0] None [] []) =
  Returns tt (Demo.start [0] (Some [Sample.invalid_use "Reference" " (top level)"]) [] []) /\
  Sample.TypeName "Account" (Demo.start [0] None [] []) =
  Returns tt (Demo.start [0] (Some [Sample.invalid_use "TypeName" " (top level)"]) [] []) /\
  Sample.Media (dsl.mediaString "application/json") [] (Demo.start [0] None [] []) =
  Returns tt (Demo.start [0] (Some [Sample.invalid_use "Media" " (top level)"]) [] []).
Proof.
  apply (DSL_functions_at_top_level Sample.names Sample.verbs (fun s => s) Sample.typeOf
           (Sample.store_field "Reference") (Sample.store_field "TypeName")
           (Sample.store_field "MediaType") (Sample.store_field "ViewName")
           Sample.Identifier Sample.pkg Demo.here "Bottle" "Account"
           (dsl.mediaString "application/json") []
           (Demo.start [0] None [] []) eq_refl).
Defined.

(** [Media] in a response, with a string and two view names. *)
Lemma Media_reports_witness :
  exists w',
    Sample.Media (dsl.mediaString "application/json") ["default"; "tiny"]
                 (Demo.inside 22 None) = Returns tt w' /\
    List.length (recorded w') = 1%nat /\
    Demo.trace (heap w') = ["response OK: MediaType = application/json"].
Proof.
  destruct (Media_reports Sample.names Sample.verbs (fun s => s) Sample.typeOf
              (Sample.store_field "MediaType") (Sample.store_field "ViewName")
              Sample.Identifier Sample.pkg Demo.here
              (dsl.mediaString "application/json") ["default"; "tiny"]
              (Demo.inside 22 None)) as (w' & Hrun & _ & _ & Hlen & Hheap).
  exists w'. split; [exact Hrun |]. split; [exact Hlen |].
  cbn in Hheap. rewrite (Hheap "application/json" eq_refl ltac:(lia)). reflexivity.
Defined.
